(** * Fireball renderer: noise field, vertex displacement, audio analysis,
      parameter modulation and orbit camera.

    Shallow embedding of
      - [src/shaders/fireball-vert.glsl]  (h31, vnoise, fbm, main),
      - [src/main.ts], in its version with audio analysis (orbit input
        handlers, audio capture state, updateAudioLevels, tick),
      - [src/rendering/gl/OpenGLRenderer.ts] (the uniforms [render] sets).

    Numbers.  GLSL [float] and JavaScript [number] are modelled by the
    real numbers [R]: every arithmetic operation is the exact one, so
    rounding, overflow to infinity and NaN are outside this model.
    GLSL [int] and the JavaScript integers are [Z].

    Where the shader divides by zero it has no finite result ([normalize]
    of the zero vector is 0/0), while [/ 0 = 0] in [R]: at such a point the
    model does not describe the shader.  [Leak] gives an input at which
    the shader reaches such a point on the way to [v_Core]. *)

From Stdlib Require Import Reals Lra Lia ZArith List Bool.
Import ListNotations.

Open Scope R_scope.

(** ** GLSL built-ins *)

Module Glsl.

Record vec2 : Type := mkVec2 { x2 : R; y2 : R }.
Record vec3 : Type := mkVec3 { vx : R; vy : R; vz : R }.
Record vec4 : Type := mkVec4 { wx : R; wy : R; wz : R; ww : R }.

(** A [mat4] is stored by columns, as GLSL does. *)
Record mat4 : Type := mkMat4 { col0 : vec4; col1 : vec4; col2 : vec4; col3 : vec4 }.

Definition floor (x : R) : R := IZR (Zfloor x).
Definition fract (x : R) : R := x - floor x.

Definition clamp (x lo hi : R) : R := Rmin (Rmax x lo) hi.
Definition mix (a b t : R) : R := a * (1 - t) + b * t.

Definition smoothstep (e0 e1 x : R) : R :=
  let t := clamp ((x - e0) / (e1 - e0)) 0 1 in
  t * t * (3 - 2 * t).

(** [pow x y]; GLSL leaves [x < 0] undefined, the model returns 0 there. *)
Definition pow (x y : R) : R :=
  if Rle_dec x 0 then 0 else Rpower x y.

(** Component-wise vector operations. *)
Definition vmap (g : R -> R) (p : vec3) : vec3 :=
  mkVec3 (g (vx p)) (g (vy p)) (g (vz p)).
Definition vzip (g : R -> R -> R) (p q : vec3) : vec3 :=
  mkVec3 (g (vx p) (vx q)) (g (vy p) (vy q)) (g (vz p) (vz q)).

Definition vadd : vec3 -> vec3 -> vec3 := vzip Rplus.
Definition vsub : vec3 -> vec3 -> vec3 := vzip Rminus.
Definition vmul : vec3 -> vec3 -> vec3 := vzip Rmult.
Definition vscale (p : vec3) (s : R) : vec3 := vmap (fun c => c * s) p.
Definition vadds (p : vec3) (s : R) : vec3 := vmap (fun c => c + s) p.
Definition vfloor : vec3 -> vec3 := vmap floor.
Definition vfract : vec3 -> vec3 := vmap fract.
Definition vmix (a b : vec3) (t : R) : vec3 :=
  mkVec3 (mix (vx a) (vx b) t) (mix (vy a) (vy b) t) (mix (vz a) (vz b) t).

Definition yzx (p : vec3) : vec3 := mkVec3 (vy p) (vz p) (vx p).
Definition dot (p q : vec3) : R := vx p * vx q + vy p * vy q + vz p * vz q.
Definition length (p : vec3) : R := sqrt (dot p p).

(** [normalize p] is [p / length p].  For [length p = 0] the built-in
    divides 0 by 0 and has no finite result; the model's value there is
    the zero vector and stands for nothing the shader computes. *)
Definition normalize (p : vec3) : vec3 := vscale p (/ length p).
Definition cross (a b : vec3) : vec3 :=
  mkVec3 (vy a * vz b - vz a * vy b)
         (vz a * vx b - vx a * vz b)
         (vx a * vy b - vy a * vx b).

Definition sub2 (a b : vec2) : vec2 := mkVec2 (x2 a - x2 b) (y2 a - y2 b).
Definition adds2 (a : vec2) (s : R) : vec2 := mkVec2 (x2 a + s) (y2 a + s).
Definition length2 (a : vec2) : R := sqrt (x2 a * x2 a + y2 a * y2 a).

(** [normalize] on [vec2], with the same proviso for [length2 a = 0]. *)
Definition normalize2 (a : vec2) : vec2 :=
  mkVec2 (x2 a * / length2 a) (y2 a * / length2 a).

Definition v4 (p : vec3) (w : R) : vec4 := mkVec4 (vx p) (vy p) (vz p) w.
Definition xyz (q : vec4) : vec3 := mkVec3 (wx q) (wy q) (wz q).

(** Matrix times column vector. *)
Definition mulMV (m : mat4) (q : vec4) : vec4 :=
  mkVec4
    (wx (col0 m) * wx q + wx (col1 m) * wy q + wx (col2 m) * wz q + wx (col3 m) * ww q)
    (wy (col0 m) * wx q + wy (col1 m) * wy q + wy (col2 m) * wz q + wy (col3 m) * ww q)
    (wz (col0 m) * wx q + wz (col1 m) * wy q + wz (col2 m) * wz q + wz (col3 m) * ww q)
    (ww (col0 m) * wx q + ww (col1 m) * wy q + ww (col2 m) * wz q + ww (col3 m) * ww q).

Definition mat4_identity : mat4 :=
  mkMat4 (mkVec4 1 0 0 0) (mkVec4 0 1 0 0) (mkVec4 0 0 1 0) (mkVec4 0 0 0 1).

End Glsl.

(** ** NoiseField: [h31], [vnoise], [fbm] (fireball-vert.glsl, lines 46-70) *)

Module Noise.
Import Glsl.

(** [float h31(vec3 p)] *)
Definition h31 (p : vec3) : R :=
  let p1 := vfract (vadd (vscale p 0.3183099) (mkVec3 0.1 0.2 0.3)) in
  let p2 := vadds p1 (dot p1 (vadds (yzx p1) 19.19)) in
  fract (vx p2 * vy p2 * vz p2 * 93.733).

(** [float vnoise(vec3 p)] *)
Definition vnoise (p : vec3) : R :=
  let i := vfloor p in
  let f := vfract p in
  let u := vmul (vmul f f) (vmap (fun c => 3 - 2 * c) f) in
  let n000 := h31 (vadd i (mkVec3 0 0 0)) in
  let n100 := h31 (vadd i (mkVec3 1 0 0)) in
  let n010 := h31 (vadd i (mkVec3 0 1 0)) in
  let n110 := h31 (vadd i (mkVec3 1 1 0)) in
  let n001 := h31 (vadd i (mkVec3 0 0 1)) in
  let n101 := h31 (vadd i (mkVec3 1 0 1)) in
  let n011 := h31 (vadd i (mkVec3 0 1 1)) in
  let n111 := h31 (vadd i (mkVec3 1 1 1)) in
  let nx00 := mix n000 n100 (vx u) in
  let nx10 := mix n010 n110 (vx u) in
  let nxy0 := mix nx00 nx10 (vy u) in
  let nx01 := mix n001 n101 (vx u) in
  let nx11 := mix n011 n111 (vx u) in
  let nxy1 := mix nx01 nx11 (vy u) in
  mix nxy0 nxy1 (vz u).

(** The body of the [for] loop of [fbm]: [n] iterations are left before the
    bound [i < 8] stops the loop, [i] is the loop counter and [a], [f], [s]
    are the three locals.  [if (i >= oct) break;] leaves with [s]. *)
Fixpoint fbm_loop (n : nat) (i oct : Z) (p : vec3) (a f s : R) : R :=
  match n with
  | O => s
  | S n' =>
      if (i >=? oct)%Z then s
      else fbm_loop n' (i + 1)%Z oct p (a * 0.5) (f * 2.02) (s + a * vnoise (vscale p f))
  end.

(** [float fbm(vec3 p, int oct)] *)
Definition fbm (p : vec3) (oct : Z) : R := fbm_loop 8 0%Z oct p 0.5 1.0 0.0.

(** Specification-side definitions. *)

(** The smooth weight [w(t) = 3t^2 - 2t^3]. *)
Definition w (t : R) : R := 3 * t ^ 2 - 2 * t ^ 3.

(** Octave [i] of the fractal sum: amplitude [0.5^(i+1)], frequency [2.02^i]. *)
Definition octave (p : vec3) (i : nat) : R :=
  0.5 ^ (S i) * vnoise (vscale p (2.02 ^ i)).

(** Sum of the first [n] octaves. *)
Fixpoint octave_sum (p : vec3) (n : nat) : R :=
  match n with
  | O => 0
  | S n' => octave_sum p n' + octave p n'
  end.

(** The octave count as the specification words it: clamped to [1,8]. *)
Definition clamp_1_8 (oct : Z) : Z := Z.min (Z.max oct 1) 8.
(** The octave count the loop really runs: clamped to [0,8]. *)
Definition clamp_0_8 (oct : Z) : Z := Z.min (Z.max oct 0) 8.

(** Trilinear interpolation of [h31] over the unit cell with corner [(i,j,k)]
    and weights [a], [b], [c] along the three axes. *)
Definition trilinear (i j k : R) (a b c : R) : R :=
    (1 - a) * (1 - b) * (1 - c) * h31 (mkVec3 i j k)
  + a * (1 - b) * (1 - c) * h31 (mkVec3 (i + 1) j k)
  + (1 - a) * b * (1 - c) * h31 (mkVec3 i (j + 1) k)
  + a * b * (1 - c) * h31 (mkVec3 (i + 1) (j + 1) k)
  + (1 - a) * (1 - b) * c * h31 (mkVec3 i j (k + 1))
  + a * (1 - b) * c * h31 (mkVec3 (i + 1) j (k + 1))
  + (1 - a) * b * c * h31 (mkVec3 i (j + 1) (k + 1))
  + a * b * c * h31 (mkVec3 (i + 1) (j + 1) (k + 1)).

End Noise.

(** ** The uniform store shared by the host and the shading stages *)

Module Gl.
Import Glsl.

(** The uniform names of the wire contract. *)
Inductive uname : Type :=
  | u_Model | u_ViewProj | u_Time | u_Octaves
  | u_CoreLowAmp | u_CoreHiAmp | u_CoreScale
  | u_FlameNoiseScale | u_FlameHiAmp | u_FlameLift | u_UpDir
  | u_MouseNDC | u_MouseStrength | u_MouseFalloff | u_MouseOn
  | u_ShellOffset | u_GlowOffset | u_SceneScale | u_Pass
  | u_BandCount | u_Exposure | u_Wash | u_GrainAmp | u_CoreHot | u_GlowStrength
  | u_AudioBass | u_AudioMid | u_AudioTreble | u_AudioBeat.

Definition uname_eq_dec (a b : uname) : {a = b} + {a <> b}.
Proof. decide equality. Defined.

(** A uniform value, by GLSL type. *)
Inductive uval : Type :=
  | F (r : R) | I (z : Z) | V2 (v : vec2) | V3 (v : vec3) | M4 (m : mat4).

(** The uniform state of the linked program. *)
Definition store : Type := uname -> uval.

Definition upd (s : store) (n : uname) (v : uval) : store :=
  fun m => if uname_eq_dec m n then v else s m.

(** Typed reads, as a shader declaration [uniform float u_X;] does them. *)
Definition uf (s : store) (n : uname) : R := match s n with F r => r | _ => 0 end.
Definition ui (s : store) (n : uname) : Z := match s n with I z => z | _ => 0%Z end.
Definition u2 (s : store) (n : uname) : vec2 :=
  match s n with V2 v => v | _ => mkVec2 0 0 end.
Definition u3 (s : store) (n : uname) : vec3 :=
  match s n with V3 v => v | _ => mkVec3 0 0 0 end.
Definition um (s : store) (n : uname) : mat4 :=
  match s n with M4 m => m | _ => mat4_identity end.

(** [gl.getUniformLocation] gives [null] for a uniform the linked program does
    not have; [loc n] tells whether the location of [n] exists.  Every write
    of the host is guarded by [if (location)]. *)
Definition locations : Type := uname -> bool.

Definition uniform (loc : locations) (n : uname) (v : uval) (s : store) : store :=
  if loc n then upd s n v else s.

(** The mouse uniforms. *)
Definition is_mouse (n : uname) : bool :=
  match n with
  | u_MouseNDC | u_MouseStrength | u_MouseFalloff | u_MouseOn => true
  | _ => false
  end.

End Gl.

(** ** DisplacementModel: [main] of fireball-vert.glsl (lines 72-145) *)

Module Vertex.
Import Glsl Gl Noise.

Record VsOut : Type := mkVsOut {
  gl_Position : vec4;
  v_Pos : vec3;
  v_Core : R;
  v_Height : R;
  v_Radial : R;
  v_Rim : R;
  v_Grain : R;
  v_UpDot : R
}.

(** The fixed low-frequency shape of the core. *)
Definition lowStatic (p : vec3) : R :=
  0.70 * sin (0.85 * vy p) + 0.50 * cos (0.60 * vz p) + 0.40 * sin (0.60 * vx p).

Definition coreDisp (u : store) (p : vec3) : R :=
  let coreHi := vnoise (vscale p 6.0) in
  uf u u_CoreLowAmp * lowStatic p + uf u u_CoreHiAmp * (coreHi - 0.5).

(** Baseline position in normalized device coordinates (lines 85-94).
    [u_ViewProj * u_Model * v] is computed as [u_ViewProj * (u_Model * v)],
    the same vector over the reals. *)
Definition baseNdc (u : store) (p n : vec3) : vec2 :=
  let baseDisp := coreDisp u p in
  let baseDisp := if (ui u u_Pass =? 1)%Z then coreDisp u p + uf u u_ShellOffset else baseDisp in
  let baseDisp := if (ui u u_Pass =? 2)%Z then coreDisp u p + uf u u_GlowOffset else baseDisp in
  let basePos := vadd p (vscale n baseDisp) in
  let baseScale :=
    if (ui u u_Pass =? 0)%Z then uf u u_SceneScale * uf u u_CoreScale else uf u u_SceneScale in
  let baseClip := mulMV (um u u_ViewProj) (mulMV (um u u_Model) (v4 (vscale basePos baseScale) 1.0)) in
  mkVec2 (wx baseClip / ww baseClip) (wy baseClip / ww baseClip).

(** Mouse influence scaled by the gate and the clamped strength
    (lines 96-100 and 111). *)
Definition attract (u : store) (ndc : vec2) : R :=
  let fall := Rmax (uf u u_MouseFalloff) 1e-4 in
  let d := length2 (sub2 ndc (u2 u u_MouseNDC)) in
  let infl := exp (- (d / fall) * (d / fall)) in
  let mouseGate := if (ui u u_MouseOn =? 1)%Z then 1.0 else 0.0 in
  mouseGate * infl * clamp (uf u u_MouseStrength) 0.0 2.0.

(** World-space tangent pointing toward the cursor (lines 102-108). *)
Definition toMouseWorld (u : store) (n : vec3) (ndc : vec2) : vec3 :=
  let a := if Rlt_dec (Rabs (vy n)) 0.99 then mkVec3 0.0 1.0 0.0 else mkVec3 1.0 0.0 0.0 in
  let t1 := normalize (cross n a) in
  let t2 := normalize (cross n t1) in
  let toMouse2D := normalize2 (adds2 (sub2 (u2 u u_MouseNDC) ndc) 1e-6) in
  normalize (vadd (vscale t1 (x2 toMouse2D)) (vscale t2 (y2 toMouse2D))).

(** [void main()] with input attribute [vs_Pos]. *)
Definition main (u : store) (vs_Pos : vec4) : VsOut :=
  let p := xyz vs_Pos in
  let n := normalize (vadds p 1e-6) in
  let Up := normalize (u3 u u_UpDir) in
  let ndc := baseNdc u p n in
  let tmw := toMouseWorld u n ndc in
  let att := attract u ndc in
  let UpDeform := normalize (vmix Up tmw (if (ui u u_Pass =? 0)%Z then 0.0 else att)) in
  let upDot := clamp (dot n UpDeform) 0.0 1.0 in
  let topWeight := pow upDot 1.6 in
  let fBM :=
    fbm (vadd (vscale p (uf u u_FlameNoiseScale)) (vscale UpDeform (0.7 * uf u u_Time)))
        (ui u u_Octaves) in
  let flameDisp :=
    coreDisp u p + topWeight * (uf u u_FlameHiAmp * (fBM - 0.5) + uf u u_FlameLift) in
  let tangentialPull := 0.12 * att in
  let extra := if (ui u u_Pass =? 0)%Z then mkVec3 0.0 0.0 0.0 else vscale tmw tangentialPull in
  let disp := coreDisp u p in
  let disp := if (ui u u_Pass =? 1)%Z then flameDisp + uf u u_ShellOffset else disp in
  let disp := if (ui u u_Pass =? 2)%Z then flameDisp + uf u u_GlowOffset else disp in
  let displaced := vadd (vadd p (vscale n disp)) extra in
  let r := length displaced in
  let scale :=
    if (ui u u_Pass =? 0)%Z then uf u u_SceneScale * uf u u_CoreScale else uf u u_SceneScale in
  let modelPos := mulMV (um u u_Model) (v4 (vscale displaced scale) 1.0) in
  {| gl_Position := mulMV (um u u_ViewProj) modelPos;
     v_Pos := xyz (mulMV (um u u_Model) (v4 displaced 1.0));
     v_Core := fBM;
     v_Height := disp;
     v_Radial := 1.0 - smoothstep 0.78 1.0 r;
     v_Rim := smoothstep 0.94 1.08 r;
     v_Grain := vnoise (vscale displaced 32.0);
     v_UpDot := upDot |}.

(** The core pass with the mouse terms left out: the up vector is not
    blended, nothing is added along the tangent, and the displacement is
    [coreDisp].  It reads no mouse uniform. *)
Definition core_main (u : store) (vs_Pos : vec4) : VsOut :=
  let p := xyz vs_Pos in
  let n := normalize (vadds p 1e-6) in
  let Up := normalize (normalize (u3 u u_UpDir)) in
  let upDot := clamp (dot n Up) 0.0 1.0 in
  let fBM :=
    fbm (vadd (vscale p (uf u u_FlameNoiseScale)) (vscale Up (0.7 * uf u u_Time)))
        (ui u u_Octaves) in
  let disp := coreDisp u p in
  let displaced := vadd p (vscale n disp) in
  let r := length displaced in
  let scale := uf u u_SceneScale * uf u u_CoreScale in
  let modelPos := mulMV (um u u_Model) (v4 (vscale displaced scale) 1.0) in
  {| gl_Position := mulMV (um u u_ViewProj) modelPos;
     v_Pos := xyz (mulMV (um u u_Model) (v4 displaced 1.0));
     v_Core := fBM;
     v_Height := disp;
     v_Radial := 1.0 - smoothstep 0.78 1.0 r;
     v_Rim := smoothstep 0.94 1.08 r;
     v_Grain := vnoise (vscale displaced 32.0);
     v_UpDot := upDot |}.

(** A snapshot for examples: the default controls, pass 0, time 0. *)
Definition sample_store : store :=
  fun n =>
    match n with
    | u_Model => M4 mat4_identity
    | u_ViewProj => M4 mat4_identity
    | u_Time => F 0
    | u_Octaves => I 5
    | u_CoreLowAmp => F 0.26
    | u_CoreHiAmp => F 0.01
    | u_CoreScale => F 0.72
    | u_FlameNoiseScale => F 2.2
    | u_FlameHiAmp => F 0.24
    | u_FlameLift => F 0.26
    | u_UpDir => V3 (mkVec3 0 1 0)
    | u_MouseNDC => V2 (mkVec2 0 0)
    | u_MouseStrength => F 0.9
    | u_MouseFalloff => F 0.35
    | u_MouseOn => I 1
    | u_ShellOffset => F 0.2
    | u_GlowOffset => F 0.32
    | u_SceneScale => F 1.0
    | u_Pass => I 0
    | u_BandCount => I 7
    | u_Exposure => F 0.45
    | u_Wash => F 0.18
    | u_GrainAmp => F 0.08
    | u_CoreHot => F 0.55
    | u_GlowStrength => F 0.9
    | u_AudioBass => F 0
    | u_AudioMid => F 0
    | u_AudioTreble => F 0
    | u_AudioBeat => F 0
    end.

End Vertex.

(** ** JavaScript helpers *)

Module Js.

Definition Rltb (a b : R) : bool := if Rlt_dec a b then true else false.
Definition Reqb (a b : R) : bool := if Req_dec_T a b then true else false.

(** [Math.sign] *)
Definition Math_sign (v : R) : R :=
  if Rlt_dec 0 v then 1 else if Rlt_dec v 0 then -1 else 0.

(** [v | 0]: truncation toward zero, then wrap-around to 32 signed bits. *)
Definition trunc (v : R) : Z := if Rle_dec 0 v then Zfloor v else Zceil v.
Definition to_int32 (v : R) : Z :=
  ((trunc v + 2147483648) mod 4294967296 - 2147483648)%Z.

End Js.

(** ** The GUI-bound controls ([defaults] and [audioDefaults] of main.ts) *)

Module Ctl.

Record controls : Type := mkControls {
  coreLowAmp : R; coreHiAmp : R; coreScale : R;
  flameNoiseScale : R; flameHiAmp : R; flameLift : R; octaves : R;
  bandCount : R; grainAmp : R; wash : R; exposure : R; coreHot : R;
  shellOffset : R; glowOffsetMul : R; sceneScale : R;
  glowStrength : R;
  upTargetX : R; upTargetY : R; upTargetZ : R; upCatchupTau : R;
  mouseOn : bool; mouseStrength : R; mouseFalloff : R;
  audioOn : bool; gain : R; smoothing : R; sensitivity : R;
  bassToFlameLift : R; bassToGlow : R; midToCoreLow : R;
  trebleToGrainHi : R; beatToExposure : R
}.

Definition defaults : controls :=
  {| coreLowAmp := 0.26; coreHiAmp := 0.01; coreScale := 0.72;
     flameNoiseScale := 2.2; flameHiAmp := 0.24; flameLift := 0.26; octaves := 5;
     bandCount := 7; grainAmp := 0.08; wash := 0.18; exposure := 0.45; coreHot := 0.55;
     shellOffset := 0.2; glowOffsetMul := 1.6; sceneScale := 1.0;
     glowStrength := 0.9;
     upTargetX := 0.0; upTargetY := 1.0; upTargetZ := 0.0; upCatchupTau := 0.25;
     mouseOn := true; mouseStrength := 0.9; mouseFalloff := 0.35;
     audioOn := true; gain := 1.0; smoothing := 0.7; sensitivity := 1.35;
     bassToFlameLift := 0.35; bassToGlow := 0.65; midToCoreLow := 0.25;
     trebleToGrainHi := 0.3; beatToExposure := 0.4 |}.

End Ctl.

(** ** OrbitCamera: the [orbit] object and its input handlers *)

Module Orbit.

Record orbit : Type := mkOrbit {
  dragging : bool;
  lastX : R; lastY : R;
  yaw : R; pitch : R; radius : R;
  minPitch : R; maxPitch : R;
  minRadius : R; maxRadius : R;
  rotateSpeed : R; zoomSpeed : R
}.

(** The initial value of [orbit]. *)
Definition init : orbit :=
  {| dragging := false; lastX := 0; lastY := 0;
     yaw := 0; pitch := 0.2; radius := 8;
     minPitch := -1.4; maxPitch := 1.4;
     minRadius := 2.5; maxRadius := 50;
     rotateSpeed := 0.008; zoomSpeed := 0.25 |}.

Inductive event : Type :=
  | MouseDown (clientX clientY : R)
  | MouseUp
  | MouseMove (clientX clientY : R)
  | Wheel (deltaY : R).

Definition on_mousedown (o : orbit) (cx cy : R) : orbit :=
  {| dragging := true; lastX := cx; lastY := cy;
     yaw := yaw o; pitch := pitch o; radius := radius o;
     minPitch := minPitch o; maxPitch := maxPitch o;
     minRadius := minRadius o; maxRadius := maxRadius o;
     rotateSpeed := rotateSpeed o; zoomSpeed := zoomSpeed o |}.

Definition on_mouseup (o : orbit) : orbit :=
  {| dragging := false; lastX := lastX o; lastY := lastY o;
     yaw := yaw o; pitch := pitch o; radius := radius o;
     minPitch := minPitch o; maxPitch := maxPitch o;
     minRadius := minRadius o; maxRadius := maxRadius o;
     rotateSpeed := rotateSpeed o; zoomSpeed := zoomSpeed o |}.

Definition on_mousemove (o : orbit) (cx cy : R) : orbit :=
  if negb (dragging o) then o
  else
    let dx := cx - lastX o in
    let dy := cy - lastY o in
    let pitch1 := pitch o + dy * rotateSpeed o in
    {| dragging := dragging o; lastX := cx; lastY := cy;
       yaw := yaw o + dx * rotateSpeed o;
       pitch := Rmax (minPitch o) (Rmin (maxPitch o) pitch1);
       radius := radius o;
       minPitch := minPitch o; maxPitch := maxPitch o;
       minRadius := minRadius o; maxRadius := maxRadius o;
       rotateSpeed := rotateSpeed o; zoomSpeed := zoomSpeed o |}.

Definition on_wheel (o : orbit) (deltaY : R) : orbit :=
  let radius1 := radius o * (1.0 + Js.Math_sign deltaY * zoomSpeed o * 0.1) in
  {| dragging := dragging o; lastX := lastX o; lastY := lastY o;
     yaw := yaw o; pitch := pitch o;
     radius := Rmax (minRadius o) (Rmin (maxRadius o) radius1);
     minPitch := minPitch o; maxPitch := maxPitch o;
     minRadius := minRadius o; maxRadius := maxRadius o;
     rotateSpeed := rotateSpeed o; zoomSpeed := zoomSpeed o |}.

Definition handle (o : orbit) (e : event) : orbit :=
  match e with
  | MouseDown cx cy => on_mousedown o cx cy
  | MouseUp => on_mouseup o
  | MouseMove cx cy => on_mousemove o cx cy
  | Wheel dy => on_wheel o dy
  end.

(** The state after a sequence of events, oldest first. *)
Definition run (evs : list event) (o : orbit) : orbit := fold_left handle evs o.

(** The eye position computed by [tick]. *)
Definition eye (o : orbit) : Glsl.vec3 :=
  let cp := cos (pitch o) in
  let sp := sin (pitch o) in
  let cy := cos (yaw o) in
  let sy := sin (yaw o) in
  Glsl.mkVec3 (radius o * cp * sy) (radius o * sp) (radius o * cp * cy).

(** The bounds invariant. *)
Definition in_bounds (o : orbit) : Prop :=
  minPitch o <= pitch o <= maxPitch o /\ minRadius o <= radius o <= maxRadius o.

Definition configured (o : orbit) : Prop :=
  minPitch o = -1.4 /\ maxPitch o = 1.4 /\ minRadius o = 2.5 /\ maxRadius o = 50.

(** The constants of [orbit], which no handler writes. *)
Definition constants (o : orbit) : Prop :=
  configured o /\ rotateSpeed o = 0.008 /\ zoomSpeed o = 0.25.

End Orbit.

(** ** AudioAnalyzer: capture state, [stopTabAudioCapture], [updateAudioLevels] *)

Module Audio.
Import Js.

(** The module-level audio variables of main.ts.  Browser objects are
    represented by a handle; [None] is [null].  [fileAudioEl] carries whether
    the element is playing. *)
Record audio : Type := mkAudio {
  tabStream : option nat;
  audioCtx : option nat;
  analyser : option nat;
  fft : option (list Z);
  fileAudioEl : option bool;
  aBass : R; aMid : R; aTre : R; aBeat : R;
  ema : R;
  lastBeatT : R
}.

Definition minBeatInterval : R := 0.26.

(** The initial values of the variables. *)
Definition init : audio :=
  {| tabStream := None; audioCtx := None; analyser := None; fft := None;
     fileAudioEl := None;
     aBass := 0; aMid := 0; aTre := 0; aBeat := 0; ema := 0; lastBeatT := 0 |}.

(** [wireAnalyserFromStream(stream)]: a new context and analyser are wired to
    the stream; [bins] is [analyser.frequencyBinCount]. *)
Definition wireAnalyserFromStream (stream ctx node : nat) (bins : nat) (a : audio) : audio :=
  {| tabStream := Some stream; audioCtx := Some ctx; analyser := Some node;
     fft := Some (repeat 0%Z bins);
     fileAudioEl := fileAudioEl a;
     aBass := aBass a; aMid := aMid a; aTre := aTre a; aBeat := aBeat a;
     ema := ema a; lastBeatT := lastBeatT a |}.

(** [startFileAudio(file)], when nothing throws: the element plays and a new
    context and analyser are wired to it. *)
Definition startFileAudio (ctx node : nat) (bins : nat) (a : audio) : audio :=
  {| tabStream := tabStream a; audioCtx := Some ctx; analyser := Some node;
     fft := Some (repeat 0%Z bins);
     fileAudioEl := Some true;
     aBass := aBass a; aMid := aMid a; aTre := aTre a; aBeat := aBeat a;
     ema := ema a; lastBeatT := lastBeatT a |}.

(** [stopTabAudioCapture()] *)
Definition stopTabAudioCapture (a : audio) : audio :=
  {| tabStream := None; audioCtx := None; analyser := None; fft := None;
     fileAudioEl := match fileAudioEl a with Some _ => Some false | None => None end;
     aBass := 0; aMid := 0; aTre := 0; aBeat := 0;
     ema := 0; lastBeatT := 0 |}.

(** The ways a stop happens: the [ended] listener that
    [wireAnalyserFromStream] puts on every track of the stream, and the
    Fireball toggle switched off. *)
Inductive stop_cause : Type := TrackEnded | ManualStop.

Definition on_stop (c : stop_cause) (a : audio) : audio :=
  match c with
  | TrackEnded => stopTabAudioCapture a
  | ManualStop => stopTabAudioCapture a
  end.

(** What the analyser node and its context give in one frame:
    [getByteFrequencyData], [getByteTimeDomainData], [sampleRate] and
    [currentTime]. *)
Record reading : Type := mkReading {
  freq : list Z;
  td : list Z;
  sampleRate : R;
  currentTime : R
}.

(** [for (let i = i0; i <= i1; i++) sum += fft[i]], with [cnt] iterations left. *)
Fixpoint sum_from (data : list Z) (i : nat) (cnt : nat) : R :=
  match cnt with
  | O => 0
  | S cnt' => IZR (nth i data 0%Z) + sum_from data (S i) cnt'
  end.

(** The closure [band(f0, f1)]. *)
Definition band (data : list Z) (binHz f0 f1 : R) : R :=
  let i0 := Z.max 0 (Zfloor (f0 / binHz)) in
  let i1 := Z.min (Z.of_nat (length data) - 1) (Zceil (f1 / binHz)) in
  let sum := sum_from data (Z.to_nat i0) (Z.to_nat (i1 - i0 + 1)) in
  sum / IZR (Z.max 1 (i1 - i0 + 1)) / 255.

Fixpoint rmsSum (samples : list Z) : R :=
  match samples with
  | [] => 0
  | b :: rest => let s := (IZR b - 128) / 128 in s * s + rmsSum rest
  end.

Definition rms (rd : reading) : R :=
  sqrt (rmsSum (td rd) / INR (length (td rd))).

(** The three band energies, after the near-silence fallback. *)
Definition bands (rd : reading) : R * R * R :=
  let binHz := sampleRate rd / (2 * INR (length (freq rd))) in
  let bass := band (freq rd) binHz 20 150 in
  let mid := band (freq rd) binHz 150 2000 in
  let tre := band (freq rd) binHz 2000 10000 in
  let tiny := Rltb ((bass + mid + tre) / 3) 0.02 in
  if tiny && Rltb 0.01 (rms rd)
  then (Rmin 1 (rms rd * 2.2), Rmin 1 (rms rd * 1.4), Rmin 1 (rms rd * 0.9))
  else (bass, mid, tre).

(** The beat energy [nowE]. *)
Definition nowE (rd : reading) : R :=
  let '(bass, mid, _) := bands rd in bass * 1.0 + mid * 0.25.

(** The moving average after this frame's update. *)
Definition ema_next (a : audio) (rd : reading) : R :=
  let ema1 := if Reqb (ema a) 0 then nowE rd else ema a in
  let alpha := 0.15 in
  (1 - alpha) * ema1 + alpha * nowE rd.

Definition threshold (sensitivity : R) (a : audio) (rd : reading) : R :=
  ema_next a rd * Rmax 0.5 sensitivity.

Definition canBeat (a : audio) (rd : reading) : bool :=
  Rltb minBeatInterval (currentTime rd - lastBeatT a).

(** The test of the [if] that fires a beat. *)
Definition fires (sensitivity : R) (a : audio) (rd : reading) : bool :=
  canBeat a rd && Rltb (threshold sensitivity a rd) (nowE rd).

(** [updateAudioLevels()]; [sensitivity] is [controls.sensitivity].  The
    once-per-second console log at its end changes none of these variables. *)
Definition updateAudioLevels (sensitivity : R) (rd : reading) (a : audio) : audio :=
  match analyser a, audioCtx a with
  | Some _, Some _ =>
      let '(bass, mid, tre) := bands rd in
      let fired := fires sensitivity a rd in
      {| tabStream := tabStream a; audioCtx := audioCtx a; analyser := analyser a;
         fft := Some (freq rd);
         fileAudioEl := fileAudioEl a;
         aBass := bass; aMid := mid; aTre := tre;
         aBeat := if fired then 1.0 else Rmax 0 (aBeat a - 3.5 * (1 / 60));
         ema := ema_next a rd;
         lastBeatT := if fired then currentTime rd else lastBeatT a |}
  | _, _ => a
  end.

(** Whether this call of [updateAudioLevels] takes the branch that sets the
    beat level to 1.0 and the timer to the current time. *)
Definition beat_fired (sensitivity : R) (rd : reading) (a : audio) : bool :=
  match analyser a, audioCtx a with
  | Some _, Some _ => fires sensitivity a rd
  | _, _ => false
  end.

(** The run of the analysis over the readings of successive frames, oldest
    first, with the number of beats fired. *)
Fixpoint beats (sensitivity : R) (rds : list reading) (a : audio) : nat * audio :=
  match rds with
  | [] => (O, a)
  | rd :: rest =>
      let n := if beat_fired sensitivity rd a then 1%nat else 0%nat in
      let '(m, a') := beats sensitivity rest (updateAudioLevels sensitivity rd a) in
      ((n + m)%nat, a')
  end.

(** A reading is a spike when its energy is above the threshold. *)
Definition spike (sensitivity : R) (a : audio) (rd : reading) : bool :=
  Rltb (threshold sensitivity a rd) (nowE rd).

(** No reading of the run is a spike. *)
Fixpoint quiet (sensitivity : R) (rds : list reading) (a : audio) : Prop :=
  match rds with
  | [] => True
  | rd :: rest =>
      spike sensitivity a rd = false /\
      quiet sensitivity rest (updateAudioLevels sensitivity rd a)
  end.

(** The state after a run. *)
Definition after (sensitivity : R) (rds : list reading) (a : audio) : audio :=
  fold_left (fun st rd => updateAudioLevels sensitivity rd st) rds a.

(** Wired: the analysis of a frame does not return early. *)
Definition wired (a : audio) : Prop := analyser a <> None /\ audioCtx a <> None.

(** Two spikes [s1] and [s2] in a run that is quiet before, between and
    after them, the first one late enough after the last beat to fire. *)
Definition two_spikes (sensitivity : R) (a : audio)
    (l1 : list reading) (s1 : reading) (l2 : list reading) (s2 : reading)
    (l3 : list reading) : Prop :=
  let a1 := after sensitivity l1 a in
  let a2 := updateAudioLevels sensitivity s1 a1 in
  let a3 := after sensitivity l2 a2 in
  quiet sensitivity l1 a
  /\ spike sensitivity a1 s1 = true
  /\ currentTime s1 - lastBeatT a > minBeatInterval
  /\ quiet sensitivity l2 a2
  /\ spike sensitivity a3 s2 = true
  /\ quiet sensitivity l3 (updateAudioLevels sensitivity s2 a3).

(** Readings for examples: a 1024-bin spectrum with every bin at [level], a
    silent 2048-sample wave form, 48 kHz, at context time [t]. *)
Definition tone (level : Z) (t : R) : reading :=
  {| freq := repeat level 1024; td := repeat 128%Z 2048;
     sampleRate := 48000; currentTime := t |}.

(** A capture wired from the initial state, and the state after one frame of
    a faint tone. *)
Definition wired0 : audio := wireAnalyserFromStream 1 1 1 1024 init.
Definition warm : audio := updateAudioLevels 1.35 (tone 20 0.1) wired0.

(** The beat rule as the specification words it: the energy is above the
    threshold and at least 0.26 s have passed since the last beat. *)
Definition spec_fires (sensitivity : R) (a : audio) (rd : reading) : Prop :=
  nowE rd > threshold sensitivity a rd /\ currentTime rd - lastBeatT a >= 0.26.

(** The beat level as the specification words it: 1.0 on a beat, otherwise a
    linear decay at 3.5 per second over the [dt] seconds since the previous
    analysis, floored at 0. *)
Definition spec_decay (level dt : R) : R := Rmax 0 (level - 3.5 * dt).

End Audio.

(** ** ParameterModulator and MultiPassCompositor: [tick] of main.ts *)

Module Frame.
Import Glsl Gl Js.

(** gl-matrix [vec3.normalize] and [vec3.lerp] (the library is a dependency
    of the repository; these are its definitions). *)
Definition vec3_normalize (a : vec3) : vec3 :=
  let len := vx a * vx a + vy a * vy a + vz a * vz a in
  let len := if Rltb 0 len then 1 / sqrt len else len in
  mkVec3 (vx a * len) (vy a * len) (vz a * len).

Definition vec3_lerp (a b : vec3) (t : R) : vec3 :=
  mkVec3 (vx a + t * (vx b - vx a)) (vy a + t * (vy b - vy a)) (vz a + t * (vz b - vz a)).

(** The mutable state a frame reads and writes: the lagged up vector, the time
    of the previous frame, the Fireball mode flag, the audio variables and the
    uniform state of the program. *)
Record host : Type := mkHost {
  upSmooth : vec3;
  last : R;
  fireballOn : bool;
  au : Audio.audio;
  prog : store
}.

(** What a frame takes from outside: the clock [performance.now()], the cursor
    in normalized device coordinates, the view-projection matrix of the camera
    (the [Camera] class is a collaborator) and the analyser's reading. *)
Record input : Type := mkInput {
  now : R;
  mouseNDC : vec2;
  viewProj : mat4;
  rd : Audio.reading
}.

(** The lagged up vector (tick, "Lagged up vector"). *)
Definition catchup (c : Ctl.controls) (dt : R) : R :=
  1.0 - exp (- dt / Rmax (Ctl.upCatchupTau c) 0.001).

Definition upTarget (c : Ctl.controls) : vec3 :=
  vec3_normalize (mkVec3 (Ctl.upTargetX c) (Ctl.upTargetY c) (Ctl.upTargetZ c)).

Definition lag_up (c : Ctl.controls) (dt : R) (up : vec3) : vec3 :=
  vec3_normalize (vec3_lerp up (upTarget c) (catchup c dt)).

(** "Shared uniforms (base)" and "Mouse uniforms". *)
Definition bind_base (loc : locations) (c : Ctl.controls) (t : R) (up : vec3)
    (mouse : vec2) (s : store) : store :=
  let s := uniform loc u_Time (F t) s in
  let s := uniform loc u_Octaves (I (to_int32 (Ctl.octaves c))) s in
  let s := uniform loc u_CoreLowAmp (F (Ctl.coreLowAmp c)) s in
  let s := uniform loc u_CoreHiAmp (F (Ctl.coreHiAmp c)) s in
  let s := uniform loc u_CoreScale (F (Ctl.coreScale c)) s in
  let s := uniform loc u_FlameNoiseScale (F (Ctl.flameNoiseScale c)) s in
  let s := uniform loc u_FlameHiAmp (F (Ctl.flameHiAmp c)) s in
  let s := uniform loc u_FlameLift (F (Ctl.flameLift c)) s in
  let s := uniform loc u_UpDir (V3 up) s in
  let s := uniform loc u_BandCount (I (to_int32 (Ctl.bandCount c))) s in
  let s := uniform loc u_GrainAmp (F (Ctl.grainAmp c)) s in
  let s := uniform loc u_Wash (F (Ctl.wash c)) s in
  let s := uniform loc u_Exposure (F (Ctl.exposure c)) s in
  let s := uniform loc u_CoreHot (F (Ctl.coreHot c)) s in
  let s := uniform loc u_ShellOffset (F (Ctl.shellOffset c)) s in
  let s := uniform loc u_GlowOffset (F (Ctl.shellOffset c * Ctl.glowOffsetMul c)) s in
  let s := uniform loc u_SceneScale (F (Ctl.sceneScale c)) s in
  let s := uniform loc u_GlowStrength (F (Ctl.glowStrength c)) s in
  let s := uniform loc u_MouseNDC (V2 mouse) s in
  let s := uniform loc u_MouseStrength (F (Ctl.mouseStrength c)) s in
  let s := uniform loc u_MouseFalloff (F (Ctl.mouseFalloff c)) s in
  uniform loc u_MouseOn (I (if Ctl.mouseOn c then 1 else 0)%Z) s.

(** The audio branch of [tick]: with Fireball mode and audio reactivity on,
    the raw levels are pushed, the analysis runs, and the modulated
    parameters overwrite the base ones, each under its ceiling; otherwise the
    four audio uniforms are zeroed. *)
Definition bind_audio (loc : locations) (c : Ctl.controls) (on : bool)
    (r : Audio.reading) (a : Audio.audio) (s : store) : Audio.audio * store :=
  if on && Ctl.audioOn c then
    let s := uniform loc u_AudioBass (F (Audio.aBass a)) s in
    let s := uniform loc u_AudioMid (F (Audio.aMid a)) s in
    let s := uniform loc u_AudioTreble (F (Audio.aTre a)) s in
    let s := uniform loc u_AudioBeat (F (Audio.aBeat a)) s in
    let a := Audio.updateAudioLevels (Ctl.sensitivity c) r a in
    let flameLift := Ctl.flameLift c + Audio.aBass a * Ctl.bassToFlameLift c in
    let glow := Ctl.glowStrength c + Audio.aBass a * Ctl.bassToGlow c in
    let coreLow := Ctl.coreLowAmp c + Audio.aMid a * Ctl.midToCoreLow c in
    let grain := Ctl.grainAmp c + Audio.aTre a * Ctl.trebleToGrainHi c in
    let exposure := Ctl.exposure c + Audio.aBeat a * Ctl.beatToExposure c in
    let s := uniform loc u_FlameLift (F (Rmin flameLift 1.8)) s in
    let s := uniform loc u_GlowStrength (F (Rmin glow 3.0)) s in
    let s := uniform loc u_CoreLowAmp (F (Rmin coreLow 1.0)) s in
    let s := uniform loc u_GrainAmp (F (Rmin grain 0.6)) s in
    let s := uniform loc u_Exposure (F (Rmin exposure 2.0)) s in
    (a, s)
  else
    let s := uniform loc u_AudioBass (F 0.0) s in
    let s := uniform loc u_AudioMid (F 0.0) s in
    let s := uniform loc u_AudioTreble (F 0.0) s in
    let s := uniform loc u_AudioBeat (F 0.0) s in
    (a, s).

(** One pass: the pass index is set, then [renderer.render] sets the model and
    view-projection matrices and draws.  The result is the uniform state the
    draw call of the pass sees.  ([render] is called with a colour, so it
    does not touch [u_Time].) *)
Definition pass (loc : locations) (vp : mat4) (i : Z) (s : store) : store :=
  let s := uniform loc u_Pass (I i) s in
  let s := uniform loc u_Model (M4 mat4_identity) s in
  uniform loc u_ViewProj (M4 vp) s.

(** [tick()]: the new host state, and the uniform state of each of the three
    draw calls in order (core, flame, glow).  [t0] is the clock at start-up. *)
Definition tick (loc : locations) (c : Ctl.controls) (t0 : R) (i : input) (h : host)
    : host * list store :=
  let dt := Rmax 0 ((now i - last h) * 0.001) in
  let t := 0.001 * (now i - t0) in
  let up := lag_up c dt (upSmooth h) in
  let s := bind_base loc c t up (mouseNDC i) (prog h) in
  let '(a, s) := bind_audio loc c (fireballOn h) (rd i) (au h) s in
  let s0 := pass loc (viewProj i) 0 s in
  let s1 := pass loc (viewProj i) 1 s0 in
  let s2 := pass loc (viewProj i) 2 s1 in
  ({| upSmooth := up; last := now i; fireballOn := fireballOn h; au := a; prog := s2 |},
   [s0; s1; s2]).

(** Audio reactivity is off when the branch [fireballOn && controls.audioOn]
    is not taken. *)
Definition audio_off (c : Ctl.controls) (h : host) : Prop :=
  fireballOn h && Ctl.audioOn c = false.

(** All locations exist. *)
Definition all_present : locations := fun _ => true.

(** The time and the lagged up vector a frame binds. *)
Definition frame_time (t0 : R) (i : input) : R := 0.001 * (now i - t0).
Definition frame_up (c : Ctl.controls) (i : input) (h : host) : vec3 :=
  lag_up c (Rmax 0 ((now i - last h) * 0.001)) (upSmooth h).

(** At an existing location [n] the state [s] holds [v] capped at [ceiling]. *)
Definition capped (loc : locations) (s : store) (n : uname) (v ceiling : R) : Prop :=
  loc n = true -> s n = F (Rmin v ceiling) /\ uf s n <= ceiling.

(** The five modulated parameters of the table of ceilings, for the audio
    levels [a], in every draw call of [draws]. *)
Definition ceilings_hold (loc : locations) (c : Ctl.controls) (a : Audio.audio)
    (draws : list store) : Prop :=
  Forall (fun s =>
    capped loc s u_FlameLift
      (Ctl.flameLift c + Audio.aBass a * Ctl.bassToFlameLift c) 1.8
    /\ capped loc s u_GlowStrength
      (Ctl.glowStrength c + Audio.aBass a * Ctl.bassToGlow c) 3.0
    /\ capped loc s u_CoreLowAmp
      (Ctl.coreLowAmp c + Audio.aMid a * Ctl.midToCoreLow c) 1.0
    /\ capped loc s u_GrainAmp
      (Ctl.grainAmp c + Audio.aTre a * Ctl.trebleToGrainHi c) 0.6
    /\ capped loc s u_Exposure
      (Ctl.exposure c + Audio.aBeat a * Ctl.beatToExposure c) 2.0) draws.

(** Two uniform states agree on every name outside [skip]. *)
Definition same_but (skip : uname -> bool) (s s' : store) : Prop :=
  forall n, skip n = false -> s n = s' n.

Definition is_time (n : uname) : bool :=
  match n with u_Time => true | _ => false end.

Definition is_time_or_up (n : uname) : bool :=
  match n with u_Time | u_UpDir => true | _ => false end.

(** The value each uniform is given in a frame with audio reactivity off, for
    the draw call of pass [k]: the parameter snapshot as a table. *)
Definition snapshot_off (c : Ctl.controls) (t : R) (up : vec3) (mouse : vec2)
    (vp : mat4) (k : Z) : store :=
  fun n =>
    match n with
    | u_Model => M4 mat4_identity
    | u_ViewProj => M4 vp
    | u_Time => F t
    | u_Octaves => I (to_int32 (Ctl.octaves c))
    | u_CoreLowAmp => F (Ctl.coreLowAmp c)
    | u_CoreHiAmp => F (Ctl.coreHiAmp c)
    | u_CoreScale => F (Ctl.coreScale c)
    | u_FlameNoiseScale => F (Ctl.flameNoiseScale c)
    | u_FlameHiAmp => F (Ctl.flameHiAmp c)
    | u_FlameLift => F (Ctl.flameLift c)
    | u_UpDir => V3 up
    | u_MouseNDC => V2 mouse
    | u_MouseStrength => F (Ctl.mouseStrength c)
    | u_MouseFalloff => F (Ctl.mouseFalloff c)
    | u_MouseOn => I (if Ctl.mouseOn c then 1 else 0)%Z
    | u_ShellOffset => F (Ctl.shellOffset c)
    | u_GlowOffset => F (Ctl.shellOffset c * Ctl.glowOffsetMul c)
    | u_SceneScale => F (Ctl.sceneScale c)
    | u_Pass => I k
    | u_BandCount => I (to_int32 (Ctl.bandCount c))
    | u_Exposure => F (Ctl.exposure c)
    | u_Wash => F (Ctl.wash c)
    | u_GrainAmp => F (Ctl.grainAmp c)
    | u_CoreHot => F (Ctl.coreHot c)
    | u_GlowStrength => F (Ctl.glowStrength c)
    | u_AudioBass => F 0.0
    | u_AudioMid => F 0.0
    | u_AudioTreble => F 0.0
    | u_AudioBeat => F 0.0
    end.

(** Examples: the default controls with the up target turned to the x axis,
    the host state at start-up, and two frames 16 ms apart with the same
    cursor and camera. *)
Definition tilted : Ctl.controls :=
  {| Ctl.coreLowAmp := 0.26; Ctl.coreHiAmp := 0.01; Ctl.coreScale := 0.72;
     Ctl.flameNoiseScale := 2.2; Ctl.flameHiAmp := 0.24; Ctl.flameLift := 0.26;
     Ctl.octaves := 5;
     Ctl.bandCount := 7; Ctl.grainAmp := 0.08; Ctl.wash := 0.18;
     Ctl.exposure := 0.45; Ctl.coreHot := 0.55;
     Ctl.shellOffset := 0.2; Ctl.glowOffsetMul := 1.6; Ctl.sceneScale := 1.0;
     Ctl.glowStrength := 0.9;
     Ctl.upTargetX := 1.0; Ctl.upTargetY := 0.0; Ctl.upTargetZ := 0.0;
     Ctl.upCatchupTau := 0.25;
     Ctl.mouseOn := true; Ctl.mouseStrength := 0.9; Ctl.mouseFalloff := 0.35;
     Ctl.audioOn := true; Ctl.gain := 1.0; Ctl.smoothing := 0.7;
     Ctl.sensitivity := 1.35;
     Ctl.bassToFlameLift := 0.35; Ctl.bassToGlow := 0.65; Ctl.midToCoreLow := 0.25;
     Ctl.trebleToGrainHi := 0.3; Ctl.beatToExposure := 0.4 |}.

Definition host0 : host :=
  {| upSmooth := mkVec3 0.0 1.0 0.0; last := 0; fireballOn := false;
     au := Audio.init; prog := Vertex.sample_store |}.

Definition frame_at (ms : R) : input :=
  {| now := ms; mouseNDC := mkVec2 0 0; viewProj := mat4_identity;
     rd := Audio.tone 0 (ms * 0.001) |}.

(** The host at start-up with Fireball mode on and a capture wired. *)
Definition host_fire : host :=
  {| upSmooth := mkVec3 0.0 1.0 0.0; last := 0; fireballOn := true;
     au := Audio.wired0; prog := Vertex.sample_store |}.

End Frame.

(** ** Cursor position: the [mousemove] listener of the canvas *)

Module Pointer.
Import Glsl.

(** [canvas.getBoundingClientRect()] *)
Record rect : Type := mkRect { left : R; top : R; width : R; height : R }.

(** The value the listener gives [mouseNDC] for a cursor at
    [(clientX, clientY)]. *)
Definition on_mousemove (r : rect) (clientX clientY : R) : vec2 :=
  let x := ((clientX - left r) / width r) * 2 - 1 in
  let y := - (((clientY - top r) / height r) * 2 - 1) in
  mkVec2 x y.

(** The cursor is over the rectangle. *)
Definition inside (r : rect) (clientX clientY : R) : Prop :=
  left r <= clientX <= left r + width r /\ top r <= clientY <= top r + height r.

End Pointer.

(** ** Audio source acquisition: [startTabAudioCapture], [startMicCapture] *)

Module Capture.
Import Audio.

(** What [getDisplayMedia] does: it is not a function, it throws (the user
    refuses), it gives a stream without an audio track, or it gives a stream
    with audio, for which an audio context and an analyser are made. *)
Inductive display_result : Type :=
  | NoDisplayMedia
  | DisplayThrows
  | DisplayNoAudio
  | DisplayStream (stream ctx node : nat) (bins : nat).

(** What [getUserMedia] does: it throws, it gives no stream, or it gives one. *)
Inductive mic_result : Type :=
  | MicThrows
  | MicNoStream
  | MicStream (stream ctx node : nat) (bins : nat).

(** [startMicCapture()] *)
Definition startMicCapture (m : mic_result) (a : audio) : audio :=
  match m with
  | MicStream stream ctx node bins => wireAnalyserFromStream stream ctx node bins a
  | MicNoStream => a
  | MicThrows => a
  end.

(** The fallback after tab capture failed: the microphone, then the
    fallback bar when there is still no analyser.  The boolean tells
    whether [showAudioFallbackUI] is called. *)
Definition mic_then_bar (m : mic_result) (a : audio) : audio * bool :=
  let a' := startMicCapture m a in
  (a', match analyser a' with None => true | Some _ => false end).

(** [startTabAudioCapture()] *)
Definition startTabAudioCapture (d : display_result) (m : mic_result) (a : audio)
    : audio * bool :=
  match d with
  | NoDisplayMedia => mic_then_bar m a
  | DisplayStream stream ctx node bins =>
      (wireAnalyserFromStream stream ctx node bins a, false)
  | DisplayNoAudio => mic_then_bar m a
  | DisplayThrows => mic_then_bar m a
  end.

(** Tab capture succeeds; the microphone succeeds. *)
Definition display_ok (d : display_result) : bool :=
  match d with DisplayStream _ _ _ _ => true | _ => false end.
Definition mic_ok (m : mic_result) : bool :=
  match m with MicStream _ _ _ _ => true | _ => false end.

End Capture.

(** ** MultiPassCompositor: the blend and depth state of [tick] *)

Module Compositor.

Inductive factor : Type := ZERO | ONE | SRC_ALPHA | ONE_MINUS_SRC_ALPHA.

(** The part of the GL state [tick] writes. *)
Record glstate : Type := mkGl {
  blend : bool;
  blendSrc : factor;
  blendDst : factor;
  depthMask : bool
}.

(** The state of a fresh context. *)
Definition gl_init : glstate :=
  {| blend := false; blendSrc := ONE; blendDst := ZERO; depthMask := true |}.

Definition set_blend (b : bool) (g : glstate) : glstate :=
  {| blend := b; blendSrc := blendSrc g; blendDst := blendDst g; depthMask := depthMask g |}.
Definition set_blendFunc (s d : factor) (g : glstate) : glstate :=
  {| blend := blend g; blendSrc := s; blendDst := d; depthMask := depthMask g |}.
Definition set_depthMask (b : bool) (g : glstate) : glstate :=
  {| blend := blend g; blendSrc := blendSrc g; blendDst := blendDst g; depthMask := b |}.

(** What a frame does with the state, in order: [renderer.clear()] under the
    state it finds, the three draw calls, and the state it leaves. *)
Record trace : Type := mkTrace {
  at_clear : glstate;
  at_draw : list glstate;
  at_end : glstate
}.

Definition frame (g : glstate) : trace :=
  let g0 := set_depthMask true (set_blend false g) in
  let g1 := set_depthMask false (set_blendFunc SRC_ALPHA ONE (set_blend true g0)) in
  let g2 := g1 in
  {| at_clear := g;
     at_draw := [g0; g1; g2];
     at_end := set_blend false (set_depthMask true g2) |}.

(** The traces of [n] successive frames, oldest first. *)
Fixpoint frames (n : nat) (g : glstate) : list trace :=
  match n with
  | O => []
  | S n' => frame g :: frames n' (at_end (frame g))
  end.

End Compositor.

(** ** Shading: fireball-frag.glsl *)

Module Fragment.
Import Glsl Gl Noise.

Definition vec3s (c : R) : vec3 := mkVec3 c c c.

(** Every component of a colour is in [0,1]. *)
Definition unit3 (c : vec3) : Prop :=
  0 <= vx c <= 1 /\ 0 <= vy c <= 1 /\ 0 <= vz c <= 1.

(** [vec3 satBoost(vec3 c, float s)] *)
Definition satBoost (c : vec3) (s : R) : vec3 :=
  let l := dot c (mkVec3 0.299 0.587 0.114) in
  vmix (vec3s l) c (1.0 + s).

(** [vec3 gamma(vec3 c, float g)] *)
Definition gamma (c : vec3) (g : R) : vec3 :=
  vmap (fun v => pow (Rmax v 0.0) g) c.

Definition palB : vec3 := mkVec3 0.12 0.25 1.00.
Definition palY : vec3 := mkVec3 1.00 0.90 0.00.
Definition palO : vec3 := mkVec3 1.00 0.50 0.00.
Definition palR : vec3 := mkVec3 0.95 0.10 0.05.

(** [vec3 firePalette_RYOB(float t)] *)
Definition firePalette_RYOB (t : R) : vec3 :=
  let t := clamp t 0.0 1.0 in
  if Rle_dec t 0.3333 then vmix palB palY (smoothstep 0.0 0.3333 t)
  else if Rle_dec t 0.6666 then vmix palY palO (smoothstep 0.3333 0.6666 t)
  else vmix palO palR (smoothstep 0.6666 1.0 t).

(** [vec3 magmaRock(float t)] *)
Definition magmaRock (t : R) : vec3 :=
  let t := clamp t 0.0 1.0 in
  let d1 := mkVec3 0.07 0.04 0.02 in
  let d2 := mkVec3 0.18 0.10 0.05 in
  vmix d1 d2 (smoothstep 0.0 1.0 t).

Definition magmaGlowColor : vec3 := mkVec3 3.0 1.0 0.2.

(** [vec3 magmaCracks(vec3 pos)] *)
Definition magmaCracks (u : store) (pos : vec3) : vec3 :=
  let n := fbm (vscale pos 3.0) 5 in
  let n2 := fbm (vadds (vscale pos 8.0) 7.3) 3 in
  let f := 0.7 * n + 0.3 * n2 in
  let crackCore := 1.0 - smoothstep 0.22 0.28 f in
  let crackHalo := 1.0 - smoothstep 0.28 0.46 f in
  let rock := magmaRock (0.4 + 0.6 * n) in
  let flick :=
    1.0 + 0.5 * sin (uf u u_Time * 4.0 + vy pos * 10.0)
              * cos (uf u u_Time * 4.0 + vx pos * 10.0)
              * sin (uf u u_Time * 4.0 + vz pos * 10.0) in
  let glowCol := vscale magmaGlowColor flick in
  let emissive := vscale glowCol (1.5 * crackCore + 0.6 * crackHalo) in
  vadd rock emissive.

(** [lit / (1.0 + lit)], then [clamp(., 0.0, 1.0)], on each component. *)
Definition tonemap (lit : vec3) : vec3 :=
  vmap (fun c => clamp c 0.0 1.0) (vzip Rdiv lit (vmap (fun c => 1.0 + c) lit)).

(** The band quantization shared by the flame and glow passes. *)
Definition steps (u : store) : Z := Z.max (ui u u_BandCount) 2.

Definition base (v : Vertex.VsOut) : R :=
  0.48 + 0.58 * Vertex.v_Height v + 0.18 * Vertex.v_UpDot v.

Definition wob (u : store) (v : Vertex.VsOut) : R :=
  0.05 * sin (uf u u_Time * 2.6 + dot (Vertex.v_Pos v) (mkVec3 0.7 0.4 0.2)).

Definition grain (u : store) (v : Vertex.VsOut) : R :=
  (Vertex.v_Grain v - 0.5) * uf u u_GrainAmp.

Definition tBand (u : store) (v : Vertex.VsOut) : R :=
  floor ((base v + wob u v + grain u v) * IZR (steps u)) / IZR (steps u).

(** The local [t] of [main]. *)
Definition band_t (u : store) (v : Vertex.VsOut) : R :=
  mix (base v) (tBand u v) 0.80.

(** [void main()]: the colour [out_Col] for the interpolated varyings [v]. *)
Definition main (u : store) (v : Vertex.VsOut) : vec4 :=
  if (ui u u_Pass =? 0)%Z then
    let col := magmaCracks u (Vertex.v_Pos v) in
    let col := vmix col (vec3s 1.0) (uf u u_Wash * 0.18 * (1.0 - Vertex.v_Radial v)) in
    let lit := vscale col (0.25 + 0.9 * clamp (uf u u_Exposure) 0.0 1.5) in
    v4 (tonemap lit) 1.0
  else
    let t := band_t u v in
    if (ui u u_Pass =? 1)%Z then
      let col := firePalette_RYOB t in
      let flick := 0.5 + 0.5 * sin (uf u u_Time * 5.0 + vy (Vertex.v_Pos v) * 10.0) in
      let heat := clamp (Vertex.v_Core v * flick) 0.0 1.0 in
      let blueAmt := uf u u_CoreHot * heat * pow (clamp (Vertex.v_UpDot v) 0.0 1.0) 1.2 in
      let col := vmix col (mkVec3 0.12 0.25 1.00) (0.35 * blueAmt) in
      let col := gamma col 0.9 in
      let col := satBoost col 0.22 in
      let col := vmix col (vec3s 1.0) (uf u u_Wash * 0.10 * (1.0 - Vertex.v_Radial v)) in
      let lit := vscale col (0.25 + 1.25 * clamp (uf u u_Exposure) 0.0 1.5) in
      let alpha := 0.18 * Vertex.v_Rim v * pow (clamp (Vertex.v_UpDot v) 0.0 1.0) 1.6 in
      v4 (tonemap lit) alpha
    else
      let crown := pow (clamp (Vertex.v_UpDot v) 0.0 1.0) 2.0 in
      let halo := smoothstep 0.60 1.00 (Vertex.v_Rim v) in
      let a := uf u u_GlowStrength * 0.22 * crown * halo in
      let glowC := firePalette_RYOB (0.75 + 0.25 * Vertex.v_UpDot v) in
      let glit := vscale glowC (0.25 + 1.25 * clamp (uf u u_Exposure) 0.0 1.5) in
      v4 (tonemap glit) a.

End Fragment.

(** ** Gestures on the orbit camera *)

Module Gesture.
Import Orbit.

Definition is_down (e : event) : bool :=
  match e with MouseDown _ _ => true | _ => false end.

(** A drag: the button goes down at [(x0, y0)] and the cursor moves through
    the points of [path]. *)
Definition drag (x0 y0 : R) (path : list (R * R)) : list event :=
  MouseDown x0 y0 :: map (fun q => MouseMove (fst q) (snd q)) path.

End Gesture.

(** ** Well-formed readings and the times of the beats *)

Module Signal.
Import Audio.

(** The elements of a [Uint8Array]. *)
Definition bytes (l : list Z) : Prop := Forall (fun b => (0 <= b <= 255)%Z) l.

Definition well_formed (rd : reading) : Prop :=
  bytes (freq rd) /\ bytes (td rd).

Definition unit (v : R) : Prop := 0 <= v <= 1.

Definition levels_unit (a : audio) : Prop :=
  unit (aBass a) /\ unit (aMid a) /\ unit (aTre a) /\ unit (aBeat a).

(** The context times of the readings of a run at which a beat fired. *)
Fixpoint beat_times (sensitivity : R) (rds : list reading) (a : audio) : list R :=
  match rds with
  | [] => []
  | rd :: rest =>
      let later := beat_times sensitivity rest (updateAudioLevels sensitivity rd a) in
      if beat_fired sensitivity rd a then currentTime rd :: later else later
  end.

(** Each time is more than [minBeatInterval] after the one before it,
    starting from [prev]. *)
Fixpoint spaced (prev : R) (ts : list R) : Prop :=
  match ts with
  | [] => True
  | t :: rest => t - prev > minBeatInterval /\ spaced t rest
  end.

End Signal.

(** ** Example controls *)

Module Scene.


End Scene.

(** ** The cursor direction [toMouse2D] (fireball-vert.glsl, lines 102-112) *)

Module Leak.
Import Glsl Gl.

(** The vector [u_MouseNDC - ndc + 1e-6] that line 106 normalizes. *)
Definition toMouse2D_arg (u : store) (ndc : vec2) : vec2 :=
  adds2 (sub2 (u2 u u_MouseNDC) ndc) 1e-6.

(** A core-pass state: the sample state with both core amplitudes at 0 and
    the cursor at [m]. *)
Definition cursor_at (m : vec2) : store :=
  fun n =>
    match n with
    | u_CoreLowAmp => F 0
    | u_CoreHiAmp => F 0
    | u_MouseNDC => V2 m
    | _ => Vertex.sample_store n
    end.

(** The vertex on the z axis, and the cursor that cancels the [1e-6]. *)
Definition pole : vec4 := mkVec4 0 0 1 1.
Definition under : vec2 := mkVec2 (-1e-6) (-1e-6).
Definition aside : vec2 := mkVec2 0.5 0.5.

End Leak.

(** * Properties *)

(** ** Comparisons *)

Module JsProps.
Import Js.

Lemma Rltb_iff (x y : R) : Rltb x y = true <-> x < y.
Proof. unfold Rltb. destruct (Rlt_dec x y); split; intros; auto; discriminate. Qed.

Lemma Rltb_true (x y : R) : x < y -> Rltb x y = true.
Proof. apply Rltb_iff. Qed.

Lemma Rltb_false (x y : R) : ~ x < y -> Rltb x y = false.
Proof. unfold Rltb. destruct (Rlt_dec x y); tauto. Qed.

End JsProps.

(** ** NoiseField *)

Module NoiseProps.
Import Glsl Noise.

Lemma fract_bounds (r : R) : 0 <= fract r < 1.
Proof.
  unfold fract, floor. pose proof (Zfloor_bound r). lra.
Qed.

Lemma floor_IZR (z : Z) : floor (IZR z) = IZR z.
Proof. unfold floor. now rewrite ZfloorZ. Qed.

Lemma fract_IZR (z : Z) : fract (IZR z) = 0.
Proof. unfold fract. rewrite floor_IZR. ring. Qed.

Lemma fract_eq (z : Z) (r : R) : IZR z <= r < IZR z + 1 -> fract r = r - IZR z.
Proof.
  intros H. unfold fract, floor. now rewrite (Zfloor_eq z r H).
Qed.

Lemma h31_bounds (p : vec3) : 0 <= h31 p < 1.
Proof. unfold h31. apply fract_bounds. Qed.

Lemma mix_bounds (a b t : R) :
  0 <= a <= 1 -> 0 <= b <= 1 -> 0 <= t <= 1 -> 0 <= mix a b t <= 1.
Proof. unfold mix. intros. nra. Qed.

Lemma weight_code (t : R) : t * t * (3 - 2 * t) = w t.
Proof. unfold w. ring. Qed.

Lemma weight_bounds (t : R) : 0 <= t < 1 -> 0 <= w t <= 1.
Proof.
  intros Ht. rewrite <- weight_code. split.
  - apply Rmult_le_pos; [nra | lra].
  - assert (H : 1 - t * t * (3 - 2 * t) = (1 - t) * (1 - t) * (1 + 2 * t)) by ring.
    assert (0 <= (1 - t) * (1 - t) * (1 + 2 * t)).
    { apply Rmult_le_pos; [nra | lra]. }
    lra.
Qed.

Lemma vnoise_is_trilinear (p : vec3) :
  vnoise p =
  trilinear (floor (vx p)) (floor (vy p)) (floor (vz p))
            (w (fract (vx p))) (w (fract (vy p))) (w (fract (vz p))).
Proof.
  unfold vnoise, trilinear, vfloor, vfract, vmul, vadd, vzip, vmap, mix; cbn.
  rewrite !Rplus_0_r, !weight_code. ring.
Qed.

Lemma vnoise_bounds (p : vec3) : 0 <= vnoise p <= 1.
Proof.
  unfold vnoise; cbv zeta.
  unfold vmul, vzip, vmap, vfract; cbn [vx vy vz].
  rewrite !weight_code.
  pose proof (weight_bounds _ (fract_bounds (vx p))).
  pose proof (weight_bounds _ (fract_bounds (vy p))).
  pose proof (weight_bounds _ (fract_bounds (vz p))).
  assert (Hh : forall q, 0 <= h31 q <= 1).
  { intro q. pose proof (h31_bounds q). lra. }
  repeat apply mix_bounds; auto.
Qed.

Lemma vnoise_lattice (i j k : Z) :
  vnoise (mkVec3 (IZR i) (IZR j) (IZR k)) = h31 (mkVec3 (IZR i) (IZR j) (IZR k)).
Proof.
  rewrite vnoise_is_trilinear; cbn [vx vy vz].
  rewrite !fract_IZR, !floor_IZR. unfold trilinear, w. ring.
Qed.

(** The loop of [fbm], started at counter [i] with the locals of that
    iteration, adds the octaves from [i] up to the bound. *)
Lemma fbm_loop_sum (p : vec3) (oct : Z) (n i : nat) :
  fbm_loop n (Z.of_nat i) oct p (0.5 ^ S i) (2.02 ^ i) (octave_sum p i) =
  octave_sum p (Nat.min (i + n) (Nat.max i (Z.to_nat oct))).
Proof.
  revert i. induction n as [|n IH]; intros i.
  - cbn [fbm_loop]. f_equal. lia.
  - cbn [fbm_loop]. destruct (Z.geb_spec (Z.of_nat i) oct) as [Hge|Hlt].
    + f_equal. lia.
    + replace (Z.of_nat i + 1)%Z with (Z.of_nat (S i)) by lia.
      replace (0.5 ^ S i * 0.5) with (0.5 ^ S (S i)) by (cbn [Rpow_def.pow]; ring).
      replace (2.02 ^ i * 2.02) with (2.02 ^ S i) by (cbn [Rpow_def.pow]; ring).
      change (octave_sum p i + 0.5 ^ S i * vnoise (vscale p (2.02 ^ i)))
        with (octave_sum p (S i)).
      rewrite IH. f_equal. lia.
Qed.

Lemma fbm_octave_sum (p : vec3) (oct : Z) :
  fbm p oct = octave_sum p (Z.to_nat (clamp_0_8 oct)).
Proof.
  unfold fbm.
  replace 0.5 with (0.5 ^ 1) at 1 by (cbn [Rpow_def.pow]; ring).
  replace 1.0 with (2.02 ^ 0) by (cbn [Rpow_def.pow]; lra).
  replace 0.0 with (octave_sum p 0) by (cbn [octave_sum]; lra).
  change 0%Z with (Z.of_nat 0).
  rewrite (fbm_loop_sum p oct 8 0). f_equal. unfold clamp_0_8. lia.
Qed.

Lemma octave_sum_bounds (p : vec3) (n : nat) :
  0 <= octave_sum p n <= 1 - 0.5 ^ n.
Proof.
  induction n as [|n IH].
  - cbn. lra.
  - cbn [octave_sum]. unfold octave.
    pose proof (vnoise_bounds (vscale p (2.02 ^ n))) as Hv.
    assert (Hp : 0 < 0.5 ^ n) by (apply pow_lt; lra).
    cbn [Rpow_def.pow]. nra.
Qed.

(** The hash of the origin: the fractional part of 605222060880657/3906250000. *)
Lemma h31_origin : h31 (mkVec3 0 0 0) = 3310880657 / 3906250000.
Proof.
  unfold h31, vfract, vadd, vscale, vadds, yzx, dot, vzip, vmap; cbn [vx vy vz].
  rewrite (fract_eq 0 (0 * 0.3183099 + 0.1)) by lra.
  rewrite (fract_eq 0 (0 * 0.3183099 + 0.2)) by lra.
  rewrite (fract_eq 0 (0 * 0.3183099 + 0.3)) by lra.
  rewrite (fract_eq 154936) by lra.
  lra.
Qed.

Lemma vnoise_origin : vnoise (mkVec3 0 0 0) = 3310880657 / 3906250000.
Proof. rewrite <- h31_origin. apply (vnoise_lattice 0 0 0). Qed.

(** C2.  [vnoise p] is the trilinear interpolation of [h31] at the eight
    lattice corners of the unit cell that holds [p] (the corner
    [floor p] satisfies [floor p <= p < floor p + 1] on each axis), with the
    weight [w t = 3t^2 - 2t^3] of the fractional coordinate on each axis;
    it lies in [0,1]; and at an integer lattice point it is [h31] of the
    point. *)
Theorem vnoise_trilinear_unit_lattice (p : vec3) (i j k : Z) :
  vnoise p =
    trilinear (floor (vx p)) (floor (vy p)) (floor (vz p))
              (w (fract (vx p))) (w (fract (vy p))) (w (fract (vz p)))
  /\ (floor (vx p) <= vx p < floor (vx p) + 1
      /\ floor (vy p) <= vy p < floor (vy p) + 1
      /\ floor (vz p) <= vz p < floor (vz p) + 1)
  /\ 0 <= vnoise p <= 1
  /\ vnoise (mkVec3 (IZR i) (IZR j) (IZR k)) = h31 (mkVec3 (IZR i) (IZR j) (IZR k)).
Proof.
  split; [apply vnoise_is_trilinear|].
  split; [unfold floor; auto using Zfloor_bound|].
  split; [apply vnoise_bounds | apply vnoise_lattice].
Qed.

(** C1, as the specification words it, fails: with [oct = 0] the loop adds no
    octave and [fbm] is 0, while the sum over the count clamped into [1,8]
    has one octave, [0.5 * vnoise p], which is not 0 at the origin. *)
Lemma fbm_clamp_1_8_fails :
  fbm (mkVec3 0 0 0) 0 <> octave_sum (mkVec3 0 0 0) (Z.to_nat (clamp_1_8 0))
  /\ fbm (mkVec3 0 0 0) 0 <> fbm (mkVec3 0 0 0) (clamp_1_8 0).
Proof.
  assert (H1 : octave_sum (mkVec3 0 0 0) 1 = 3310880657 / 7812500000).
  { cbn [octave_sum]. unfold octave, vscale, vmap; cbn [vx vy vz Rpow_def.pow].
    rewrite !Rmult_0_l, vnoise_origin. lra. }
  assert (H0 : fbm (mkVec3 0 0 0) 0 = 0).
  { rewrite fbm_octave_sum. reflexivity. }
  split.
  - rewrite H0. change (Z.to_nat (clamp_1_8 0)) with 1%nat. rewrite H1. lra.
  - rewrite H0. change (clamp_1_8 0) with 1%Z. rewrite fbm_octave_sum.
    change (Z.to_nat (clamp_0_8 1)) with 1%nat. rewrite H1. lra.
Qed.

(** C1, amended.  [fbm p oct] is the sum over the octave index [i], from 0,
    of the amplitude [0.5^(i+1)] times [vnoise (p * 2.02^i)], over the octave
    count clamped into [0,8]; it equals [fbm] at the clamped count; for
    [oct >= 1] this is the count clamped into [1,8]; for [oct <= 0] the
    result is 0. *)
Theorem fbm_sum_clamp_0_8 (p : vec3) (oct : Z) :
  fbm p oct = octave_sum p (Z.to_nat (clamp_0_8 oct))
  /\ fbm p oct = fbm p (clamp_0_8 oct)
  /\ fbm p (Z.max oct 1) = octave_sum p (Z.to_nat (clamp_1_8 oct))
  /\ fbm p (Z.min oct 0) = 0.
Proof.
  repeat split.
  - apply fbm_octave_sum.
  - rewrite !fbm_octave_sum. f_equal. unfold clamp_0_8. lia.
  - rewrite fbm_octave_sum. f_equal. unfold clamp_0_8, clamp_1_8. lia.
  - rewrite fbm_octave_sum.
    replace (Z.to_nat (clamp_0_8 (Z.min oct 0))) with 0%nat
      by (unfold clamp_0_8; lia).
    reflexivity.
Qed.

(** C10.  For every [p] and every octave count [k], [fbm p k] lies in
    [[0, 1 - 0.5^min(max(k,0),8)]], so it is below 1; and the loop stops
    after 8 iterations, so every [k >= 8] gives [fbm p 8]. *)
Theorem fbm_range_and_cap (p : vec3) (k : Z) :
  0 <= fbm p k <= 1 - 0.5 ^ Z.to_nat (Z.min (Z.max k 0) 8)
  /\ fbm p k < 1
  /\ fbm p (Z.max k 8) = fbm p 8.
Proof.
  pose proof (octave_sum_bounds p (Z.to_nat (clamp_0_8 k))) as Hb.
  rewrite <- fbm_octave_sum in Hb. unfold clamp_0_8 in Hb.
  assert (Hp : 0 < 0.5 ^ Z.to_nat (Z.min (Z.max k 0) 8)) by (apply pow_lt; lra).
  repeat split; try lra.
  rewrite !fbm_octave_sum. f_equal. unfold clamp_0_8. lia.
Qed.

End NoiseProps.

(** ** DisplacementModel *)

Module VertexProps.
Import Glsl Gl Noise Vertex.

Lemma vmix_0 (a b : vec3) : vmix a b 0.0 = a.
Proof. destruct a as [ax ay az]. unfold vmix, mix; cbn. f_equal; lra. Qed.

Lemma vadd_0_r (a : vec3) : vadd a (mkVec3 0.0 0.0 0.0) = a.
Proof. destruct a as [ax ay az]. unfold vadd, vzip; cbn. f_equal; lra. Qed.

(** In pass 0 [main] is [core_main]. *)
Lemma main_core (u : store) (vs : vec4) :
  ui u u_Pass = 0%Z -> main u vs = core_main u vs.
Proof.
  intros Hp. unfold main, core_main. cbv zeta. rewrite Hp. cbn [Z.eqb].
  rewrite vmix_0, vadd_0_r. reflexivity.
Qed.

Lemma coreDisp_time (u : store) (t : R) (p : vec3) :
  coreDisp (upd u u_Time (F t)) p = coreDisp u p.
Proof. reflexivity. Qed.

(** C3.  In the core pass (pass index 0) the displacement [v_Height] is
    [coreLowAmp * (0.70 sin(0.85 p.y) + 0.50 cos(0.60 p.z) + 0.40 sin(0.60 p.x))
     + coreHiAmp * (vnoise(6 p) - 0.5)],
    and it does not depend on the elapsed time: setting [u_Time] to any [t]
    leaves the displacement, the displaced position [v_Pos] and
    [gl_Position] as they are. *)
Theorem core_displacement_formula (u : store) (vs : vec4) (t : R) :
  ui u u_Pass = 0%Z ->
  v_Height (main u vs) =
    uf u u_CoreLowAmp *
      (0.70 * sin (0.85 * wy vs) + 0.50 * cos (0.60 * wz vs) + 0.40 * sin (0.60 * wx vs))
    + uf u u_CoreHiAmp * (vnoise (vscale (xyz vs) 6) - 0.5)
  /\ v_Height (main (upd u u_Time (F t)) vs) = v_Height (main u vs)
  /\ v_Pos (main (upd u u_Time (F t)) vs) = v_Pos (main u vs)
  /\ gl_Position (main (upd u u_Time (F t)) vs) = gl_Position (main u vs).
Proof.
  intros Hp.
  assert (Hp' : ui (upd u u_Time (F t)) u_Pass = 0%Z) by exact Hp.
  rewrite (main_core _ vs Hp), (main_core _ vs Hp').
  repeat split.
  cbn [v_Height core_main]. unfold coreDisp, lowStatic; cbn [xyz vx vy vz].
  replace 6.0 with 6 by lra. reflexivity.
Qed.

Lemma core_displacement_formula_witness :
  ui sample_store u_Pass = 0%Z
  /\ v_Height (main sample_store (mkVec4 1 0 0 1)) =
       uf sample_store u_CoreLowAmp *
         (0.70 * sin (0.85 * 0) + 0.50 * cos (0.60 * 0) + 0.40 * sin (0.60 * 1))
       + uf sample_store u_CoreHiAmp * (vnoise (vscale (mkVec3 1 0 0) 6) - 0.5).
Proof.
  split; [reflexivity|].
  apply (core_displacement_formula sample_store (mkVec4 1 0 0 1) 1). reflexivity.
Defined.

(** [toMouseWorld] normalizes the cursor offset [Leak.toMouse2D_arg]. *)
Lemma toMouseWorld_arg (u : store) (n : vec3) (ndc : vec2) :
  toMouseWorld u n ndc =
    let a := if Rlt_dec (Rabs (vy n)) 0.99 then mkVec3 0.0 1.0 0.0 else mkVec3 1.0 0.0 0.0 in
    let t1 := normalize (cross n a) in
    let t2 := normalize (cross n t1) in
    let toMouse2D := normalize2 (Leak.toMouse2D_arg u ndc) in
    normalize (vadd (vscale t1 (x2 toMouse2D)) (vscale t2 (y2 toMouse2D))).
Proof. reflexivity. Qed.



End VertexProps.

(** ** OrbitCamera *)

Module OrbitProps.
Import Orbit.

Lemma clamp_in (lo hi v : R) : lo <= hi -> lo <= Rmax lo (Rmin hi v) <= hi.
Proof.
  intros H. unfold Rmax, Rmin.
  destruct (Rle_dec hi v); destruct (Rle_dec lo _); lra.
Qed.

Lemma handle_constants (o : orbit) (e : event) : constants o -> constants (handle o e).
Proof.
  unfold constants, configured.
  destruct e; cbn; unfold on_mousemove; try destruct (dragging o); cbn; tauto.
Qed.

Lemma handle_in_bounds (o : orbit) (e : event) :
  constants o -> in_bounds o -> in_bounds (handle o e).
Proof.
  unfold constants, configured, in_bounds.
  intros [[H1 [H2 [H3 H4]]] _] [Hp Hr].
  destruct e; cbn; unfold on_mousemove; try destruct (dragging o); cbn;
    try (split; assumption).
  all: split; try assumption; apply clamp_in; lra.
Qed.

Lemma run_invariant (evs : list event) (o : orbit) :
  constants o -> in_bounds o ->
  constants (run evs o) /\ in_bounds (run evs o).
Proof.
  revert o. induction evs as [|e evs IH]; intros o Hc Hb.
  - now split.
  - cbn. apply IH; [now apply handle_constants | now apply handle_in_bounds].
Qed.

Lemma init_invariant : constants init /\ in_bounds init.
Proof. unfold constants, configured, in_bounds; cbn. lra. Qed.

(** C8.  From the initial state (pitch 0.2, radius 8), after every finite
    sequence of events the pitch is in [-1.4, 1.4] and the radius in
    [2.5, 50], these being [minPitch], [maxPitch], [minRadius] and
    [maxRadius]; and in every such state a drag update sets the pitch to
    the clamped sum and a scroll update sets the radius to the clamped
    product. *)
Theorem orbit_bounds_invariant (evs : list event) (x0 y0 x1 y1 deltaY : R) :
  let o := run evs init in
  (minPitch o = -1.4 /\ maxPitch o = 1.4 /\ minRadius o = 2.5 /\ maxRadius o = 50)
  /\ -1.4 <= pitch o <= 1.4
  /\ 2.5 <= radius o <= 50
  /\ pitch (on_mousemove (on_mousedown o x0 y0) x1 y1) =
       Rmax (-1.4) (Rmin 1.4 (pitch o + (y1 - y0) * 0.008))
  /\ radius (on_wheel o deltaY) =
       Rmax 2.5 (Rmin 50 (radius o * (1.0 + Js.Math_sign deltaY * 0.25 * 0.1))).
Proof.
  intros o.
  destruct init_invariant as [Hc Hb].
  destruct (run_invariant evs init Hc Hb) as [[Hcfg [Hrot Hzoom]] [Hp Hr]].
  fold o in Hcfg, Hrot, Hzoom, Hp, Hr.
  pose proof Hcfg as [H1 [H2 [H3 H4]]].
  split; [exact Hcfg|].
  split; [lra|]. split; [lra|].
  split.
  - unfold on_mousemove; cbn. now rewrite H1, H2, Hrot.
  - unfold on_wheel; cbn. now rewrite H3, H4, Hzoom.
Qed.

End OrbitProps.

(** ** AudioAnalyzer *)

Module AudioProps.
Import Js JsProps Audio.

(** *** Readings with a flat spectrum *)

Lemma nth_repeat_in (b : Z) (n i : nat) : (i < n)%nat -> nth i (repeat b n) 0%Z = b.
Proof.
  revert i. induction n as [|n IH]; intros i Hi; [lia|].
  destruct i as [|i]; cbn; [reflexivity | apply IH; lia].
Qed.

Lemma sum_from_repeat (b : Z) (n cnt i : nat) :
  (i + cnt <= n)%nat -> sum_from (repeat b n) i cnt = INR cnt * IZR b.
Proof.
  revert i. induction cnt as [|cnt IH]; intros i Hi.
  - cbn. ring.
  - cbn [sum_from]. rewrite nth_repeat_in by lia. rewrite IH by lia.
    rewrite S_INR. ring.
Qed.

Lemma band_repeat (b : Z) (n : nat) (binHz f0 f1 : R) :
  0 < binHz -> 0 <= f0 <= f1 -> f0 / binHz < INR n ->
  band (repeat b n) binHz f0 f1 = IZR b / 255.
Proof.
  intros Hb Hf Hn. unfold band. rewrite repeat_length.
  set (x0 := f0 / binHz) in *. set (x1 := f1 / binHz).
  assert (Hx0 : 0 <= x0).
  { unfold x0, Rdiv. apply Rmult_le_pos; [lra|]. left. now apply Rinv_0_lt_compat. }
  assert (Hx01 : x0 <= x1).
  { unfold x0, x1, Rdiv. apply Rmult_le_compat_r; [|lra].
    left. now apply Rinv_0_lt_compat. }
  pose proof (Zfloor_bound x0) as Hfl.
  pose proof (Zceil_bound x1) as Hce.
  assert (H0 : (0 <= Zfloor x0)%Z) by (apply (Zfloor_lub 0); exact Hx0).
  assert (H1 : (Zfloor x0 < Z.of_nat n)%Z).
  { apply lt_IZR. rewrite <- INR_IZR_INZ. lra. }
  assert (H2 : (Zfloor x0 <= Zceil x1)%Z) by (apply le_IZR; lra).
  set (i0 := Z.max 0 (Zfloor x0)).
  set (i1 := Z.min (Z.of_nat n - 1) (Zceil x1)).
  assert (Hi : (0 <= i0 /\ i0 <= i1 /\ i1 <= Z.of_nat n - 1)%Z) by (unfold i0, i1; lia).
  rewrite sum_from_repeat by lia.
  rewrite INR_IZR_INZ, Z2Nat.id by lia.
  rewrite Z.max_r by lia.
  assert (Hc : IZR (i1 - i0 + 1) <> 0).
  { apply not_0_IZR. lia. }
  field. exact Hc.
Qed.

Lemma rmsSum_silent (n : nat) : rmsSum (repeat 128%Z n) = 0.
Proof.
  induction n as [|n IH]; [reflexivity|].
  cbn [repeat rmsSum]. rewrite IH. lra.
Qed.

Lemma rms_tone (b : Z) (t : R) : rms (tone b t) = 0.
Proof.
  unfold rms, tone; cbn [td]. rewrite rmsSum_silent.
  unfold Rdiv. rewrite Rmult_0_l. apply sqrt_0.
Qed.

Lemma bands_tone (b : Z) (t : R) :
  bands (tone b t) = (IZR b / 255, IZR b / 255, IZR b / 255).
Proof.
  unfold bands. rewrite rms_tone.
  rewrite (Rltb_false 0.01 0) by lra. rewrite andb_false_r.
  unfold tone; cbn [freq sampleRate]. rewrite repeat_length.
  assert (Hn : INR 1024 = 1024) by (rewrite INR_IZR_INZ; reflexivity).
  rewrite Hn.
  rewrite !band_repeat; try reflexivity; rewrite ?Hn; lra.
Qed.

Lemma nowE_tone (b : Z) (t : R) : nowE (tone b t) = 1.25 * IZR b / 255.
Proof. unfold nowE. rewrite bands_tone. lra. Qed.

(** *** One call of [updateAudioLevels] *)

Lemma update_unwired (s : R) (rd : reading) (a : audio) :
  ~ wired a -> updateAudioLevels s rd a = a /\ beat_fired s rd a = false.
Proof.
  unfold wired, updateAudioLevels, beat_fired. intros H.
  destruct (analyser a); destruct (audioCtx a); try (now split).
  exfalso. apply H. split; discriminate.
Qed.

Lemma update_wired (s : R) (rd : reading) (a : audio) :
  wired a ->
  let a' := updateAudioLevels s rd a in
  wired a'
  /\ beat_fired s rd a = fires s a rd
  /\ nowE rd = aBass a' * 1.0 + aMid a' * 0.25
  /\ ema a' = ema_next a rd
  /\ aBeat a' = (if fires s a rd then 1.0 else Rmax 0 (aBeat a - 3.5 * (1 / 60)))
  /\ lastBeatT a' = (if fires s a rd then currentTime rd else lastBeatT a).
Proof.
  unfold wired, updateAudioLevels, beat_fired, nowE. intros [Ha Hc].
  destruct (analyser a) eqn:Ea; [|congruence].
  destruct (audioCtx a) eqn:Ec; [|congruence].
  destruct (bands rd) as [[bass mid] tre]. cbn.
  repeat split; congruence.
Qed.

Lemma wired_dec (a : audio) : wired a \/ ~ wired a.
Proof.
  unfold wired. destruct (analyser a); destruct (audioCtx a);
    try (left; split; discriminate); right; intros [? ?]; congruence.
Qed.

(** A reading that is no spike fires no beat and leaves the timer. *)
Lemma no_spike_step (s : R) (rd : reading) (a : audio) :
  spike s a rd = false ->
  beat_fired s rd a = false /\ lastBeatT (updateAudioLevels s rd a) = lastBeatT a.
Proof.
  intros Hs.
  assert (Hf : fires s a rd = false).
  { unfold fires. unfold spike in Hs. rewrite Hs. apply andb_false_r. }
  destruct (wired_dec a) as [Hw|Hw].
  - destruct (update_wired s rd a Hw) as (_ & Hb & _ & _ & _ & Hl).
    rewrite Hb, Hl, Hf. now split.
  - destruct (update_unwired s rd a Hw) as [-> ->]. now split.
Qed.

Lemma fst_beats_cons (s : R) (rd : reading) (l : list reading) (a : audio) :
  fst (beats s (rd :: l) a) =
  ((if beat_fired s rd a then 1 else 0) + fst (beats s l (updateAudioLevels s rd a)))%nat.
Proof.
  cbn [beats]. destruct (beats s l (updateAudioLevels s rd a)). reflexivity.
Qed.

Lemma beats_app (s : R) (l l' : list reading) (a : audio) :
  fst (beats s (l ++ l') a) = (fst (beats s l a) + fst (beats s l' (after s l a)))%nat.
Proof.
  revert a. induction l as [|rd l IH]; intros a.
  - reflexivity.
  - rewrite <- app_comm_cons, !fst_beats_cons, IH. cbn [after fold_left].
    unfold after. lia.
Qed.

Lemma after_wired (s : R) (l : list reading) (a : audio) :
  wired a -> wired (after s l a).
Proof.
  revert a. induction l as [|rd l IH]; intros a Hw; [exact Hw|].
  cbn. apply IH. now destruct (update_wired s rd a Hw).
Qed.

Lemma quiet_beats (s : R) (l : list reading) (a : audio) :
  quiet s l a ->
  fst (beats s l a) = 0%nat /\ lastBeatT (after s l a) = lastBeatT a.
Proof.
  revert a. induction l as [|rd l IH]; intros a Hq.
  - now split.
  - destruct Hq as [Hs Hq]. destruct (no_spike_step s rd a Hs) as [Hb Hl].
    destruct (IH _ Hq) as [Hn Ht].
    rewrite fst_beats_cons, Hb, Hn. cbn [after fold_left].
    unfold after in Ht. rewrite Ht, Hl. now split.
Qed.

(** The count of beats over two spikes: one for the first spike, and one more
    exactly when the second comes more than 0.26 s after it. *)
Lemma two_spikes_count (s : R) (a : audio)
    (l1 : list reading) (s1 : reading) (l2 : list reading) (s2 : reading)
    (l3 : list reading) :
  wired a ->
  two_spikes s a l1 s1 l2 s2 l3 ->
  fst (beats s (l1 ++ s1 :: l2 ++ s2 :: l3) a) =
  (1 + (if Rltb minBeatInterval (currentTime s2 - currentTime s1) then 1 else 0))%nat.
Proof.
  intros Hw (Hq1 & Hs1 & Ht1 & Hq2 & Hs2 & Hq3).
  destruct (quiet_beats s l1 a Hq1) as [Hn1 Hl1].
  pose proof (after_wired s l1 a Hw) as Hw1.
  set (a1 := after s l1 a) in *.
  destruct (update_wired s s1 a1 Hw1) as (Hw2 & Hb1 & _ & _ & _ & Hl2).
  assert (Hf1 : fires s a1 s1 = true).
  { unfold fires, canBeat. unfold spike in Hs1. rewrite Hs1, Hl1.
    rewrite Rltb_true by lra. reflexivity. }
  rewrite Hf1 in Hb1, Hl2.
  set (a2 := updateAudioLevels s s1 a1) in *.
  destruct (quiet_beats s l2 a2 Hq2) as [Hn2 Hl3].
  pose proof (after_wired s l2 a2 Hw2) as Hw3.
  set (a3 := after s l2 a2) in *.
  destruct (update_wired s s2 a3 Hw3) as (_ & Hb2 & _).
  assert (Hf2 : fires s a3 s2 = Rltb minBeatInterval (currentTime s2 - currentTime s1)).
  { unfold fires, canBeat. unfold spike in Hs2. rewrite Hs2, Hl3, Hl2.
    apply andb_true_r. }
  destruct (quiet_beats s l3 _ Hq3) as [Hn3 _].
  rewrite beats_app, Hn1. fold a1.
  rewrite fst_beats_cons, Hb1. fold a2.
  rewrite beats_app, Hn2. fold a3.
  rewrite fst_beats_cons, Hb2, Hf2, Hn3.
  destruct (Rltb minBeatInterval (currentTime s2 - currentTime s1)); reflexivity.
Qed.

(** *** The example states *)

Lemma Rmax_sens : Rmax 0.5 1.35 = 1.35.
Proof. unfold Rmax. destruct (Rle_dec 0.5 1.35); lra. Qed.

Lemma wired0_wired : wired wired0.
Proof. split; discriminate. Qed.

Lemma ema_next_fresh (a : audio) (rd : reading) :
  ema a = 0 -> ema_next a rd = nowE rd.
Proof.
  intros H. unfold ema_next, Reqb. rewrite H.
  destruct (Req_dec_T 0 0); [lra | congruence].
Qed.

Lemma ema_next_warm (a : audio) (rd : reading) :
  ema a <> 0 -> ema_next a rd = 0.85 * ema a + 0.15 * nowE rd.
Proof.
  intros H. unfold ema_next, Reqb.
  destruct (Req_dec_T (ema a) 0); [congruence | lra].
Qed.

Lemma warm_state :
  wired warm /\ ema warm = 5 / 51 /\ aBeat warm = 0 /\ lastBeatT warm = 0.
Proof.
  destruct (update_wired 1.35 (tone 20 0.1) wired0 wired0_wired)
    as (Hw & _ & _ & He & Hb & Hl).
  fold warm in Hw, He, Hb, Hl.
  assert (Hema : ema_next wired0 (tone 20 0.1) = 5 / 51).
  { rewrite ema_next_fresh by reflexivity. rewrite nowE_tone. lra. }
  assert (Hf : fires 1.35 wired0 (tone 20 0.1) = false).
  { unfold fires, threshold. rewrite Hema, Rmax_sens, nowE_tone.
    rewrite (Rltb_false (5 / 51 * 1.35)) by lra. apply andb_false_r. }
  rewrite Hf in Hb, Hl. rewrite He, Hb, Hl, Hema.
  split; [exact Hw|]. split; [reflexivity|]. split; [|reflexivity].
  change (aBeat wired0) with 0. unfold Rmax.
  destruct (Rle_dec _ _); lra.
Qed.

(** A full-scale tone is a spike for a state whose moving average is low. *)
Lemma loud_spike (a : audio) (t : R) :
  0 < ema a <= 0.5 ->
  spike 1.35 a (tone 255 t) = true
  /\ ema_next a (tone 255 t) = 0.85 * ema a + 0.1875.
Proof.
  intros He.
  assert (Hn : ema_next a (tone 255 t) = 0.85 * ema a + 0.1875).
  { rewrite ema_next_warm by lra. rewrite nowE_tone. lra. }
  split; [|exact Hn].
  unfold spike, threshold. rewrite Hn, Rmax_sens, nowE_tone.
  apply Rltb_true. lra.
Qed.

Lemma warm_loud (t : R) :
  let a1 := updateAudioLevels 1.35 (tone 255 t) warm in
  spike 1.35 warm (tone 255 t) = true
  /\ wired a1
  /\ ema a1 = 0.85 * (5 / 51) + 0.1875.
Proof.
  destruct warm_state as (Hw & He & _ & _).
  destruct (loud_spike warm t) as [Hs Hn]; [rewrite He; lra|].
  destruct (update_wired 1.35 (tone 255 t) warm Hw) as (Hw1 & _ & _ & He1 & _).
  cbv zeta. rewrite He1, Hn, He. auto.
Qed.

(** C7, as the specification words it, fails in three places.  At exactly
    0.26 s after the last beat a reading above the threshold satisfies the
    worded rule (at least 0.26 s) and fires no beat.  After a beat, a quiet
    reading 1/30 s later leaves the level at [1 - 3.5/60], not at the
    [1 - 3.5/30] of a decay of 3.5 per second.  And of two spikes 0.3 s
    apart, the first 0.2 s after the timer's value, only the second fires. *)
Lemma beat_worded_rule_fails :
  (spec_fires 1.35 warm (tone 255 0.26)
   /\ beat_fired 1.35 (tone 255 0.26) warm = false)
  /\ (let a1 := updateAudioLevels 1.35 (tone 255 1) warm in
      let rd2 := tone 0 (1 + 1 / 30) in
      beat_fired 1.35 rd2 a1 = false
      /\ aBeat (updateAudioLevels 1.35 rd2 a1)
         <> spec_decay (aBeat a1) (currentTime rd2 - currentTime (tone 255 1)))
  /\ (let a1 := updateAudioLevels 1.35 (tone 255 0.2) warm in
      spike 1.35 warm (tone 255 0.2) = true
      /\ spike 1.35 a1 (tone 255 0.5) = true
      /\ currentTime (tone 255 0.5) - currentTime (tone 255 0.2) > 0.26
      /\ fst (beats 1.35 [tone 255 0.2; tone 255 0.5] warm) = 1%nat).
Proof.
  destruct warm_state as (Hw & He & Hb & Hl).
  split; [|split].
  3: {
    destruct (warm_loud 0.2) as (Hs & Hw1 & He1). cbv zeta.
    destruct (update_wired 1.35 (tone 255 0.2) warm Hw) as (_ & Hf1 & _ & _ & _ & Hl1).
    set (a1 := updateAudioLevels 1.35 (tone 255 0.2) warm) in *.
    assert (Hn : fires 1.35 warm (tone 255 0.2) = false).
    { unfold fires, canBeat, minBeatInterval. rewrite Hl. cbn [currentTime tone].
      rewrite Rltb_false by lra. reflexivity. }
    rewrite Hn in Hf1, Hl1.
    destruct (loud_spike a1 0.5) as [Hs2 _]; [rewrite He1; lra|].
    destruct (update_wired 1.35 (tone 255 0.5) a1 Hw1) as (_ & Hf2 & _).
    assert (Hy : fires 1.35 a1 (tone 255 0.5) = true).
    { unfold fires, canBeat, minBeatInterval. unfold spike in Hs2.
      rewrite Hs2, Hl1, Hl. cbn [currentTime tone].
      rewrite Rltb_true by lra. reflexivity. }
    repeat apply conj; try assumption.
    - cbn [currentTime tone]. lra.
    - rewrite !fst_beats_cons. fold a1. rewrite Hf1, Hf2, Hy. reflexivity. }
  - destruct (warm_loud 0.26) as (Hs & _ & _).
    destruct (update_wired 1.35 (tone 255 0.26) warm Hw) as (_ & Hf & _).
    split.
    + split.
      * unfold spike in Hs. apply Rltb_iff in Hs. lra.
      * rewrite Hl. cbn [currentTime tone]. lra.
    + rewrite Hf. unfold fires, canBeat, minBeatInterval. rewrite Hl.
      cbn [currentTime tone]. rewrite Rltb_false by lra. reflexivity.
  - destruct (warm_loud 1) as (Hs & Hw1 & He1).
    destruct (update_wired 1.35 (tone 255 1) warm Hw) as (_ & _ & _ & _ & Hb1 & _).
    assert (Hf1 : fires 1.35 warm (tone 255 1) = true).
    { unfold fires, canBeat, minBeatInterval. unfold spike in Hs. rewrite Hs, Hl.
      cbn [currentTime tone]. rewrite Rltb_true by lra. reflexivity. }
    rewrite Hf1 in Hb1.
    cbv zeta. set (a1 := updateAudioLevels 1.35 (tone 255 1) warm) in *.
    destruct (update_wired 1.35 (tone 0 (1 + 1 / 30)) a1 Hw1)
      as (_ & Hf2 & _ & _ & Hb2 & _).
    assert (Hq : fires 1.35 a1 (tone 0 (1 + 1 / 30)) = false).
    { unfold fires, threshold. rewrite ema_next_warm by (rewrite He1; lra).
      rewrite He1, Rmax_sens, nowE_tone.
      rewrite (Rltb_false _ (1.25 * 0 / 255)) by lra. apply andb_false_r. }
    rewrite Hq in Hb2. split; [now rewrite Hf2|].
    rewrite Hb2, Hb1. unfold spec_decay. cbn [currentTime tone].
    unfold Rmax. repeat destruct (Rle_dec _ _); lra.
Qed.

(** C7, amended.  In a wired analysis a beat fires exactly when the beat
    energy [bass*1.0 + mid*0.25] exceeds [ema * max(0.5, sensitivity)], [ema]
    being the moving average updated with this energy, and more than 0.26 s
    have passed since the last beat.  Firing sets the beat level to 1.0 and
    the timer to the current time; otherwise the level drops by [3.5/60] per
    call, floored at 0, and the timer stays.  For two spikes, the first late
    enough to fire, in an otherwise quiet run: less than 0.26 s apart
    exactly one beat fires, more than 0.26 s apart two beats fire. *)
Theorem beat_rule (s : R) (a : audio) (rd : reading)
    (l1 : list reading) (s1 : reading) (l2 : list reading) (s2 : reading)
    (l3 : list reading) :
  wired a ->
  two_spikes s a l1 s1 l2 s2 l3 ->
  let a' := updateAudioLevels s rd a in
  nowE rd = aBass a' * 1.0 + aMid a' * 0.25
  /\ (beat_fired s rd a = true <->
        nowE rd > ema a' * Rmax 0.5 s /\ currentTime rd - lastBeatT a > 0.26)
  /\ (beat_fired s rd a = true -> aBeat a' = 1.0 /\ lastBeatT a' = currentTime rd)
  /\ (beat_fired s rd a = false ->
        aBeat a' = Rmax 0 (aBeat a - 3.5 / 60) /\ lastBeatT a' = lastBeatT a)
  /\ (currentTime s2 - currentTime s1 < 0.26 ->
        fst (beats s (l1 ++ s1 :: l2 ++ s2 :: l3) a) = 1%nat)
  /\ (currentTime s2 - currentTime s1 > 0.26 ->
        fst (beats s (l1 ++ s1 :: l2 ++ s2 :: l3) a) = 2%nat).
Proof.
  intros Hw H2 a'.
  destruct (update_wired s rd a Hw) as (_ & Hf & HE & He & Hb & Hl).
  fold a' in HE, He, Hb, Hl.
  split; [exact HE|].
  split.
  { rewrite Hf, He. unfold fires, canBeat, threshold, minBeatInterval.
    rewrite andb_true_iff, !Rltb_iff. split; intros [? ?]; split; lra. }
  split.
  { intros Ht. rewrite Hf in Ht. rewrite Hb, Hl, Ht. now split. }
  split.
  { intros Ht. rewrite Hf in Ht. rewrite Hb, Hl, Ht. split; [|reflexivity].
    f_equal. lra. }
  rewrite (two_spikes_count s a l1 s1 l2 s2 l3 Hw H2). unfold minBeatInterval.
  split; intros Hd.
  - rewrite Rltb_false by lra. reflexivity.
  - rewrite Rltb_true by lra. reflexivity.
Qed.

Lemma beat_rule_witness :
  wired warm
  /\ two_spikes 1.35 warm [] (tone 255 1) [] (tone 255 1.1) []
  /\ fst (beats 1.35 [tone 255 1; tone 255 1.1] warm) = 1%nat.
Proof.
  assert (Hw : wired warm) by apply warm_state.
  assert (H2 : two_spikes 1.35 warm [] (tone 255 1) [] (tone 255 1.1) []).
  { destruct warm_state as (_ & _ & _ & Hl).
    destruct (warm_loud 1) as (Hs & Hw1 & He1).
    unfold two_spikes. cbn [after fold_left quiet].
    repeat split; try exact Hs.
    - rewrite Hl. unfold minBeatInterval. cbn [currentTime tone]. lra.
    - apply loud_spike. rewrite He1. lra. }
  split; [exact Hw|]. split; [exact H2|].
  apply (beat_rule 1.35 warm (tone 255 1) [] (tone 255 1) [] (tone 255 1.1) [] Hw H2).
  cbn [currentTime tone]. lra.
Defined.

(** C9.  A stop, by a capture track that ended or by the user, sets the four
    audio levels to 0 and resets the moving average and the debounce timer
    to 0, and drops the stream, the context and the analyser; a source
    wired after it starts from these zeros. *)
Theorem stop_resets_audio (c : stop_cause) (a : audio) (stream ctx node bins : nat) :
  let a' := on_stop c a in
  let b := wireAnalyserFromStream stream ctx node bins a' in
  let f := startFileAudio ctx node bins a' in
  on_stop c a = stopTabAudioCapture a
  /\ (aBass a' = 0 /\ aMid a' = 0 /\ aTre a' = 0 /\ aBeat a' = 0)
  /\ (ema a' = 0 /\ lastBeatT a' = 0)
  /\ (tabStream a' = None /\ audioCtx a' = None /\ analyser a' = None /\ fft a' = None)
  /\ (aBass b = 0 /\ aMid b = 0 /\ aTre b = 0 /\ aBeat b = 0)
  /\ (ema b = 0 /\ lastBeatT b = 0)
  /\ (aBass f = 0 /\ aMid f = 0 /\ aTre f = 0 /\ aBeat f = 0)
  /\ (ema f = 0 /\ lastBeatT f = 0).
Proof.
  destruct c; cbn; repeat apply conj; reflexivity.
Qed.

End AudioProps.

(** ** ParameterModulator and the uniform binding of a frame *)

Module FrameProps.
Import Glsl Gl Js JsProps Frame.

Lemma uniform_other (loc : locations) (n m : uname) (v : uval) (s : store) :
  n <> m -> uniform loc n v s m = s m.
Proof.
  intros H. unfold uniform, upd. destruct (loc n); [|reflexivity].
  destruct (uname_eq_dec m n); congruence.
Qed.

Lemma uniform_same (loc : locations) (n : uname) (v : uval) (s : store) :
  uniform loc n v s n = if loc n then v else s n.
Proof.
  unfold uniform, upd. destruct (loc n); [|reflexivity].
  destruct (uname_eq_dec n n); congruence.
Qed.

(** Reads a store built by a chain of guarded writes at a given name. *)
Ltac read_store :=
  repeat first [ rewrite uniform_same
               | rewrite uniform_other by discriminate ].

Lemma bind_audio_off (loc : locations) (c : Ctl.controls) (on : bool)
    (r : Audio.reading) (a : Audio.audio) (s : store) :
  on && Ctl.audioOn c = false ->
  bind_audio loc c on r a s =
  (a, uniform loc u_AudioBeat (F 0.0)
        (uniform loc u_AudioTreble (F 0.0)
          (uniform loc u_AudioMid (F 0.0)
            (uniform loc u_AudioBass (F 0.0) s)))).
Proof. intros H. unfold bind_audio. rewrite H. reflexivity. Qed.

(** With audio reactivity off, the three draw calls of a frame see, at every
    location that exists, the value of the snapshot table, and the old value
    elsewhere; the host keeps the state of the last draw. *)
Lemma tick_off (loc : locations) (c : Ctl.controls) (t0 : R) (i : input) (h : host) :
  audio_off c h ->
  exists s0 s1 s2,
    tick loc c t0 i h =
      ({| upSmooth := frame_up c i h; last := now i; fireballOn := fireballOn h;
          au := au h; prog := s2 |}, [s0; s1; s2])
    /\ forall n,
      let snap := snapshot_off c (frame_time t0 i) (frame_up c i h) (mouseNDC i) (viewProj i) in
      s0 n = (if loc n then snap 0%Z n else prog h n)
      /\ s1 n = (if loc n then snap 1%Z n else prog h n)
      /\ s2 n = (if loc n then snap 2%Z n else prog h n).
Proof.
  intros Hoff. unfold audio_off in Hoff.
  unfold tick. cbv zeta. rewrite (bind_audio_off _ _ _ _ _ _ Hoff).
  do 3 eexists. split; [reflexivity|].
  intros n. unfold pass, bind_base, frame_time, frame_up. cbv zeta.
  destruct n; read_store; cbn [snapshot_off];
    destruct (loc _); repeat split; reflexivity.
Qed.

(** *** The lagged up vector *)

Lemma sq_len_nonneg (a : vec3) : 0 <= vx a * vx a + vy a * vy a + vz a * vz a.
Proof. nra. Qed.

Lemma sq_len_pos_y (x y z : R) : 0 < y -> 0 < x * x + y * y + z * z.
Proof. intros H. nra. Qed.

(** A vector that is not zero is scaled by a positive factor. *)
Lemma normalize_scale (a : vec3) :
  0 < vx a * vx a + vy a * vy a + vz a * vz a ->
  exists k, 0 < k
    /\ k * k * (vx a * vx a + vy a * vy a + vz a * vz a) = 1
    /\ vec3_normalize a = mkVec3 (vx a * k) (vy a * k) (vz a * k).
Proof.
  intros H. set (L := vx a * vx a + vy a * vy a + vz a * vz a) in *.
  pose proof (sqrt_lt_R0 L H) as Hs.
  pose proof (sqrt_sqrt L (Rlt_le _ _ H)) as Hq.
  exists (1 / sqrt L). split; [|split].
  - apply Rdiv_lt_0_compat; lra.
  - rewrite <- Hq at 3. field. lra.
  - unfold vec3_normalize. cbv zeta. fold L. rewrite (Rltb_true 0 L H). reflexivity.
Qed.

Lemma normalize_unit (a : vec3) :
  vx a * vx a + vy a * vy a + vz a * vz a = 1 -> vec3_normalize a = a.
Proof.
  intros H. unfold vec3_normalize. cbv zeta. rewrite H.
  rewrite (Rltb_true 0 1) by lra. rewrite sqrt_1.
  destruct a as [ax ay az]; cbn. f_equal; field.
Qed.

Lemma normalize_null (a : vec3) :
  vx a * vx a + vy a * vy a + vz a * vz a = 0 ->
  vec3_normalize a = mkVec3 0 0 0.
Proof.
  intros H. unfold vec3_normalize. cbv zeta. rewrite H.
  rewrite (Rltb_false 0 0) by lra. f_equal; ring.
Qed.

Lemma normalize_idem (a : vec3) :
  vec3_normalize (vec3_normalize a) = vec3_normalize a.
Proof.
  destruct (Rlt_dec 0 (vx a * vx a + vy a * vy a + vz a * vz a)) as [H|H].
  - destruct (normalize_scale a H) as (k & Hk & Hu & ->).
    apply normalize_unit. cbn [vx vy vz]. rewrite <- Hu. ring.
  - assert (H0 : vx a * vx a + vy a * vy a + vz a * vz a = 0).
    { pose proof (sq_len_nonneg a). lra. }
    rewrite (normalize_null a H0). apply normalize_null. cbn. ring.
Qed.

Lemma lerp_same (a : vec3) (t : R) : vec3_lerp a a t = a.
Proof. destruct a as [ax ay az]. unfold vec3_lerp; cbn. f_equal; ring. Qed.

(** Once the lagged up vector has reached the target it stays there. *)
Lemma lag_up_fixed (c : Ctl.controls) (dt : R) :
  lag_up c dt (upTarget c) = upTarget c.
Proof.
  unfold lag_up. rewrite lerp_same. unfold upTarget. apply normalize_idem.
Qed.

Lemma catchup_range (c : Ctl.controls) (dt : R) :
  0 < dt -> 0 < catchup c dt < 1.
Proof.
  intros H. unfold catchup.
  set (m := Rmax (Ctl.upCatchupTau c) 0.001).
  assert (Hm : 0 < m).
  { unfold m, Rmax. destruct (Rle_dec _ _); lra. }
  assert (Hneg : - dt / m < 0).
  { unfold Rdiv. pose proof (Rinv_0_lt_compat m Hm). nra. }
  pose proof (exp_pos (- dt / m)) as Hp.
  pose proof (exp_increasing _ _ Hneg) as Hi. rewrite exp_0 in Hi.
  lra.
Qed.

(** A step of the lag toward the x axis, from a vector with a positive y
    component, does not give the same vector back. *)
Lemma lag_step_moves (x1 y1 k k2 : R) :
  0 < y1 -> 0 < k < 1 -> 0 < k2 ->
  (x1 + k * (1 - x1)) * k2 = x1 -> (y1 + k * (0 - y1)) * k2 = y1 -> False.
Proof.
  intros Hy Hk Hk2 Hx Hy2.
  assert (H1 : (1 - k) * k2 = 1).
  { apply (Rmult_eq_reg_l y1); [|lra]. lra. }
  assert (H2 : k * k2 = 0).
  { replace ((x1 + k * (1 - x1)) * k2) with (x1 * ((1 - k) * k2) + k * k2) in Hx by ring.
    rewrite H1 in Hx. lra. }
  nra.
Qed.

Lemma upTarget_tilted : upTarget tilted = mkVec3 1 0 0.
Proof.
  unfold upTarget. rewrite normalize_unit; cbn; [f_equal; lra | lra].
Qed.

(** The up vector of two frames 16 ms apart, on the way from the y axis to the
    x axis. *)
Lemma tilted_up_moves :
  let u1 := lag_up tilted 0.016 (mkVec3 0.0 1.0 0.0) in
  lag_up tilted 0.016 u1 <> u1.
Proof.
  cbv zeta. unfold lag_up. rewrite upTarget_tilted.
  destruct (catchup_range tilted 0.016) as [Hk0 Hk1]; [lra|].
  set (k := catchup tilted 0.016) in *.
  set (v1 := vec3_lerp (mkVec3 0.0 1.0 0.0) (mkVec3 1 0 0) k).
  assert (Hv1 : 0 < vx v1 * vx v1 + vy v1 * vy v1 + vz v1 * vz v1).
  { unfold v1, vec3_lerp; cbn [vx vy vz]. nra. }
  destruct (normalize_scale v1 Hv1) as (k1 & Hk1p & _ & ->).
  set (x1 := vx v1 * k1). set (y1 := vy v1 * k1). set (z1 := vz v1 * k1).
  assert (Hy1 : 0 < y1).
  { unfold y1, v1, vec3_lerp; cbn [vy]. apply Rmult_lt_0_compat; lra. }
  set (v2 := vec3_lerp (mkVec3 x1 y1 z1) (mkVec3 1 0 0) k).
  assert (Hv2 : 0 < vx v2 * vx v2 + vy v2 * vy v2 + vz v2 * vz v2).
  { unfold v2, vec3_lerp; cbn [vx vy vz]. apply sq_len_pos_y. nra. }
  destruct (normalize_scale v2 Hv2) as (k2 & Hk2p & _ & ->).
  intros Heq. injection Heq as Hx Hy _.
  unfold v2, vec3_lerp in Hx, Hy; cbn [vx vy vz] in Hx, Hy.
  exact (lag_step_moves x1 y1 k k2 Hy1 (conj Hk0 Hk1) Hk2p Hx Hy).
Qed.

(** C5, as the specification words it, fails: with audio reactivity off and
    the same controls, cursor and camera, two consecutive frames bind
    different values of [u_UpDir] while the lagged up vector is on its way
    to the target. *)
Lemma audio_off_frames_differ_in_up :
  let f1 := tick all_present tilted 0 (frame_at 16) host0 in
  let f2 := tick all_present tilted 0 (frame_at 32) (fst f1) in
  audio_off tilted host0
  /\ mouseNDC (frame_at 16) = mouseNDC (frame_at 32)
  /\ viewProj (frame_at 16) = viewProj (frame_at 32)
  /\ ~ Forall2 (same_but is_time) (snd f1) (snd f2).
Proof.
  cbv zeta. repeat split.
  destruct (tick_off all_present tilted 0 (frame_at 16) host0 eq_refl)
    as (a0 & a1 & a2 & E1 & V1).
  rewrite E1. cbn [fst snd].
  set (h1 := {| upSmooth := frame_up tilted (frame_at 16) host0;
                last := now (frame_at 16); fireballOn := fireballOn host0;
                au := au host0; prog := a2 |}).
  destruct (tick_off all_present tilted 0 (frame_at 32) h1 eq_refl)
    as (b0 & b1 & b2 & E2 & V2).
  rewrite E2. cbn [snd].
  intros H. inversion H as [|? ? ? ? H0 _]; subst.
  specialize (H0 u_UpDir eq_refl).
  destruct (V1 u_UpDir) as (W1 & _). destruct (V2 u_UpDir) as (W2 & _).
  rewrite W1, W2 in H0. cbn [all_present snapshot_off] in H0.
  assert (Hup : frame_up tilted (frame_at 32) h1 = frame_up tilted (frame_at 16) host0)
    by congruence.
  clear H0 W1 W2 V1 V2 E1 E2 H. revert Hup.
  unfold frame_up. cbn [upSmooth last now frame_at h1 host0].
  unfold frame_up. cbn [upSmooth last now frame_at host0].
  replace (Rmax 0 ((32 - 16) * 0.001)) with 0.016
    by (unfold Rmax; destruct (Rle_dec _ _); lra).
  replace (Rmax 0 ((16 - 0) * 0.001)) with 0.016
    by (unfold Rmax; destruct (Rle_dec _ _); lra).
  exact tilted_up_moves.
Qed.

(** C5, amended.  With audio reactivity off, two consecutive frames with the
    same controls, cursor and camera bind the same value to every uniform
    except [u_Time] and [u_UpDir], in each of the three draw calls; and
    [u_UpDir] is the same too once the lagged up vector has reached the
    normalized target. *)
Theorem audio_off_frames_agree (loc : locations) (c : Ctl.controls) (t0 : R)
    (i1 i2 : input) (h0 : host) :
  audio_off c h0 ->
  mouseNDC i1 = mouseNDC i2 ->
  viewProj i1 = viewProj i2 ->
  let f1 := tick loc c t0 i1 h0 in
  let f2 := tick loc c t0 i2 (fst f1) in
  Forall2 (same_but is_time_or_up) (snd f1) (snd f2)
  /\ (upSmooth h0 = upTarget c -> Forall2 (same_but is_time) (snd f1) (snd f2)).
Proof.
  intros Hoff Hm Hv. cbv zeta.
  destruct (tick_off loc c t0 i1 h0 Hoff) as (a0 & a1 & a2 & E1 & V1).
  rewrite E1. cbn [fst snd].
  set (h1 := {| upSmooth := frame_up c i1 h0; last := now i1;
                fireballOn := fireballOn h0; au := au h0; prog := a2 |}).
  assert (Hoff1 : audio_off c h1) by exact Hoff.
  destruct (tick_off loc c t0 i2 h1 Hoff1) as (b0 & b1 & b2 & E2 & V2).
  rewrite E2. cbn [snd].
  assert (Hold : forall n, loc n = false -> prog h1 n = prog h0 n).
  { intros n Hn. cbn [prog h1]. destruct (V1 n) as (_ & _ & W). now rewrite W, Hn. }
  split.
  - repeat apply Forall2_cons; try apply Forall2_nil; intros n Hn;
      destruct (V1 n) as (W0 & W1 & W2); destruct (V2 n) as (X0 & X1 & X2);
      rewrite ?W0, ?W1, ?W2, ?X0, ?X1, ?X2;
      (destruct (loc n) eqn:Hl; [|now apply eq_sym, Hold]);
      destruct n; try discriminate Hn; cbn [snapshot_off];
      rewrite <- ?Hm, <- ?Hv; reflexivity.
  - intros Hup.
    assert (U1 : frame_up c i1 h0 = upTarget c).
    { unfold frame_up. rewrite Hup. apply lag_up_fixed. }
    assert (U2 : frame_up c i2 h1 = upTarget c).
    { unfold frame_up. cbn [upSmooth h1]. rewrite U1. apply lag_up_fixed. }
    repeat apply Forall2_cons; try apply Forall2_nil; intros n Hn;
      destruct (V1 n) as (W0 & W1 & W2); destruct (V2 n) as (X0 & X1 & X2);
      rewrite ?W0, ?W1, ?W2, ?X0, ?X1, ?X2;
      (destruct (loc n) eqn:Hl; [|now apply eq_sym, Hold]);
      destruct n; try discriminate Hn; cbn [snapshot_off];
      rewrite <- ?Hm, <- ?Hv, ?U1, ?U2; reflexivity.
Qed.

Lemma audio_off_frames_agree_witness :
  audio_off tilted host0
  /\ mouseNDC (frame_at 16) = mouseNDC (frame_at 32)
  /\ viewProj (frame_at 16) = viewProj (frame_at 32)
  /\ Forall2 (same_but is_time_or_up)
       (snd (tick all_present tilted 0 (frame_at 16) host0))
       (snd (tick all_present tilted 0 (frame_at 32)
               (fst (tick all_present tilted 0 (frame_at 16) host0)))).
Proof.
  split; [reflexivity|]. split; [reflexivity|]. split; [reflexivity|].
  apply (audio_off_frames_agree all_present tilted 0 (frame_at 16) (frame_at 32) host0);
    reflexivity.
Defined.

(** C6.  With audio reactivity on, a frame makes exactly three draw calls,
    with the pass indices 0, 1 and 2 in this order, and leaves the uniform
    state of the last one in the program.  In each of the three every
    modulated parameter is its base value plus the level times its gain,
    capped at its ceiling: flameLift at 1.8, glowStrength at 3.0, coreLowAmp
    at 1.0, grainAmp at 0.6 and exposure at 2.0, whatever the levels and the
    base values are.  The levels are those of this frame's analysis. *)
Theorem modulated_ceilings (loc : locations) (c : Ctl.controls) (t0 : R)
    (i : input) (h : host) :
  fireballOn h = true -> Ctl.audioOn c = true ->
  exists s0 s1 s2 : store,
    snd (tick loc c t0 i h) = [s0; s1; s2]
    /\ prog (fst (tick loc c t0 i h)) = s2
    /\ (loc u_Pass = true ->
        ui s0 u_Pass = 0%Z /\ ui s1 u_Pass = 1%Z /\ ui s2 u_Pass = 2%Z)
    /\ au (fst (tick loc c t0 i h))
       = Audio.updateAudioLevels (Ctl.sensitivity c) (rd i) (au h)
    /\ ceilings_hold loc c (au (fst (tick loc c t0 i h))) [s0; s1; s2].
Proof.
  intros Hf Ha. unfold tick, bind_audio. cbv zeta. rewrite Hf, Ha.
  cbn [andb fst snd au prog].
  do 3 eexists. split; [reflexivity|]. split; [reflexivity|].
  split.
  { intros Hl. unfold pass, ui. cbv zeta. repeat apply conj; read_store;
      rewrite Hl; reflexivity. }
  split; [reflexivity|].
  unfold ceilings_hold, pass. cbv zeta.
  repeat apply Forall_cons; try apply Forall_nil.
  all: repeat apply conj.
  all: unfold capped, uf; intros Hl; read_store; rewrite Hl.
  all: split; [reflexivity | apply Rmin_r].
Qed.

Lemma modulated_ceilings_witness :
  fireballOn host_fire = true /\ Ctl.audioOn Ctl.defaults = true
  /\ exists s0 s1 s2 : store,
       snd (tick all_present Ctl.defaults 0 (frame_at 16) host_fire) = [s0; s1; s2]
       /\ prog (fst (tick all_present Ctl.defaults 0 (frame_at 16) host_fire)) = s2
       /\ (all_present u_Pass = true ->
           ui s0 u_Pass = 0%Z /\ ui s1 u_Pass = 1%Z /\ ui s2 u_Pass = 2%Z)
       /\ au (fst (tick all_present Ctl.defaults 0 (frame_at 16) host_fire))
          = Audio.updateAudioLevels (Ctl.sensitivity Ctl.defaults) (rd (frame_at 16))
              (au host_fire)
       /\ ceilings_hold all_present Ctl.defaults
            (au (fst (tick all_present Ctl.defaults 0 (frame_at 16) host_fire)))
            [s0; s1; s2].
Proof.
  split; [reflexivity|]. split; [reflexivity|].
  apply (modulated_ceilings all_present Ctl.defaults 0 (frame_at 16) host_fire);
    reflexivity.
Defined.

End FrameProps.

(** * Further properties *)

(** ** More on the noise field *)

Module NoiseMore.
Import Glsl Noise NoiseProps.

Lemma octave_bounds (p : vec3) (i : nat) : 0 <= octave p i <= 0.5 ^ S i.
Proof.
  unfold octave. pose proof (vnoise_bounds (vscale p (2.02 ^ i))) as Hv.
  assert (Hp : 0 < 0.5 ^ S i) by (apply pow_lt; lra).
  nra.
Qed.

Lemma octave_sum_mono (p : vec3) (n d : nat) :
  octave_sum p n <= octave_sum p (n + d).
Proof.
  induction d as [|d IH].
  - rewrite Nat.add_0_r. lra.
  - rewrite Nat.add_succ_r. cbn [octave_sum].
    pose proof (octave_bounds p (n + d)). lra.
Qed.

(** One more octave adds between 0 and its amplitude [0.5^(k+1)]; so [fbm]
    does not decrease when the octave count grows. *)
Theorem fbm_next_octave (p : vec3) (k : Z) (d : nat) :
  0 <= fbm p (k + 1) - fbm p k <= 0.5 ^ (Z.to_nat k + 1)
  /\ fbm p k <= fbm p (k + Z.of_nat d).
Proof.
  rewrite !fbm_octave_sum. split.
  - destruct (Z_lt_le_dec k 0) as [Hn|Hn];
      [|destruct (Z_lt_le_dec k 8) as [H8|H8]].
    + replace (Z.to_nat (clamp_0_8 (k + 1))) with 0%nat by (unfold clamp_0_8; lia).
      replace (Z.to_nat (clamp_0_8 k)) with 0%nat by (unfold clamp_0_8; lia).
      assert (0 < 0.5 ^ (Z.to_nat k + 1)) by (apply pow_lt; lra). lra.
    + replace (Z.to_nat (clamp_0_8 (k + 1))) with (S (Z.to_nat k))
        by (unfold clamp_0_8; lia).
      replace (Z.to_nat (clamp_0_8 k)) with (Z.to_nat k) by (unfold clamp_0_8; lia).
      cbn [octave_sum]. rewrite Nat.add_1_r.
      pose proof (octave_bounds p (Z.to_nat k)). lra.
    + replace (Z.to_nat (clamp_0_8 (k + 1))) with 8%nat by (unfold clamp_0_8; lia).
      replace (Z.to_nat (clamp_0_8 k)) with 8%nat by (unfold clamp_0_8; lia).
      assert (0 < 0.5 ^ (Z.to_nat k + 1)) by (apply pow_lt; lra). lra.
  - set (a := Z.to_nat (clamp_0_8 k)).
    set (b := Z.to_nat (clamp_0_8 (k + Z.of_nat d))).
    assert (Hab : (a <= b)%nat) by (unfold a, b, clamp_0_8; lia).
    replace b with (a + (b - a))%nat by lia. apply octave_sum_mono.
Qed.

End NoiseMore.

(** ** More on the displacement model *)

Module VertexMore.
Import Glsl Gl Noise Vertex NoiseProps VertexProps.

Lemma clamp_bounds (v lo hi : R) : lo <= hi -> lo <= clamp v lo hi <= hi.
Proof.
  intros H. unfold clamp, Rmin, Rmax.
  destruct (Rle_dec v lo); destruct (Rle_dec _ hi); lra.
Qed.

Lemma smooth_unit (t : R) : 0 <= t <= 1 -> 0 <= t * t * (3 - 2 * t) <= 1.
Proof.
  intros Ht. split.
  - apply Rmult_le_pos; [nra | lra].
  - assert (0 <= (1 - t) * (1 - t) * (1 + 2 * t)).
    { apply Rmult_le_pos; [nra | lra]. }
    nra.
Qed.

Lemma smoothstep_bounds (e0 e1 v : R) : 0 <= smoothstep e0 e1 v <= 1.
Proof.
  unfold smoothstep. cbv zeta. apply smooth_unit. apply clamp_bounds. lra.
Qed.

Lemma exp_le_1 (z : R) : z <= 0 -> exp z <= 1.
Proof.
  intros [H|H].
  - left. rewrite <- exp_0. now apply exp_increasing.
  - rewrite H, exp_0. lra.
Qed.

Lemma ln_le_0 (v : R) : 0 < v <= 1 -> ln v <= 0.
Proof.
  intros [H0 [H1|H1]].
  - left. rewrite <- ln_1. now apply ln_increasing.
  - rewrite H1, ln_1. lra.
Qed.

Lemma pow_unit (v e : R) : 0 <= v <= 1 -> 0 <= e -> 0 <= pow v e <= 1.
Proof.
  intros Hv He. unfold pow. destruct (Rle_dec v 0); [lra|].
  unfold Rpower. split; [left; apply exp_pos|].
  apply exp_le_1. pose proof (ln_le_0 v). nra.
Qed.



(** *** The mouse coupling *)






(** *** Bounds on the displacement *)






(** *** The core pass and the cursor *)

(** In the core pass the position and the varyings computed from it do not
    read the mouse uniforms at all: line 129 selects [vec3(0.0)] for the
    tangential pull and the displacement is [coreDisp].  So two uniform
    states that differ only in [u_MouseNDC], [u_MouseStrength],
    [u_MouseFalloff] and [u_MouseOn] give the same [gl_Position], [v_Pos],
    [v_Height], [v_Radial], [v_Rim] and [v_Grain]. *)
Theorem core_pass_shape_immune (u1 u2 : store) (vs : vec4) :
  ui u1 u_Pass = 0%Z ->
  (forall n, is_mouse n = false -> u1 n = u2 n) ->
  gl_Position (main u1 vs) = gl_Position (main u2 vs)
  /\ v_Pos (main u1 vs) = v_Pos (main u2 vs)
  /\ v_Height (main u1 vs) = v_Height (main u2 vs)
  /\ v_Radial (main u1 vs) = v_Radial (main u2 vs)
  /\ v_Rim (main u1 vs) = v_Rim (main u2 vs)
  /\ v_Grain (main u1 vs) = v_Grain (main u2 vs).
Proof.
  intros Hp H.
  assert (Hp2 : ui u2 u_Pass = 0%Z).
  { unfold ui in *. rewrite <- (H u_Pass) by reflexivity. exact Hp. }
  unfold main. cbv zeta.
  cbn [gl_Position v_Pos v_Height v_Radial v_Rim v_Grain].
  rewrite Hp, Hp2. cbn [Z.eqb].
  unfold coreDisp, uf, um.
  rewrite (H u_CoreLowAmp), (H u_CoreHiAmp), (H u_SceneScale), (H u_CoreScale),
    (H u_Model), (H u_ViewProj) by reflexivity.
  repeat split.
Qed.

Lemma core_pass_shape_immune_witness :
  ui (Leak.cursor_at Leak.under) u_Pass = 0%Z
  /\ v_Pos (main (Leak.cursor_at Leak.under) Leak.pole)
     = v_Pos (main (Leak.cursor_at Leak.aside) Leak.pole)
  /\ v_Height (main (Leak.cursor_at Leak.under) Leak.pole)
     = v_Height (main (Leak.cursor_at Leak.aside) Leak.pole).
Proof.
  split; [reflexivity|].
  destruct (core_pass_shape_immune (Leak.cursor_at Leak.under)
              (Leak.cursor_at Leak.aside) Leak.pole) as (_ & P & Hh & _).
  - reflexivity.
  - intros n Hn. destruct n; try discriminate Hn; reflexivity.
  - split; assumption.
Defined.

End VertexMore.

(** ** More on the orbit camera and the cursor *)

Module OrbitMore.
Import Glsl Orbit OrbitProps Gesture.

Lemma reachable (evs : list event) :
  constants (run evs init) /\ in_bounds (run evs init).
Proof. destruct init_invariant. now apply run_invariant. Qed.

(** The eye is on the sphere of radius [radius] about the origin, so after
    every sequence of events its distance from the target is between 2.5
    and 50. *)
Theorem eye_on_sphere (evs : list event) :
  let o := run evs init in
  dot (eye o) (eye o) = radius o * radius o
  /\ length (eye o) = radius o
  /\ 2.5 <= length (eye o) <= 50.
Proof.
  intros o.
  destruct (reachable evs) as [[(H1 & H2 & H3 & H4) _] [_ Hr]]. fold o in H3, H4, Hr.
  assert (Hd : dot (eye o) (eye o) = radius o * radius o).
  { unfold eye, dot. cbv zeta. cbn [vx vy vz].
    pose proof (sin2_cos2 (pitch o)) as Hp. pose proof (sin2_cos2 (yaw o)) as Hy.
    unfold Rsqr in Hp, Hy.
    replace (radius o * cos (pitch o) * sin (yaw o) * (radius o * cos (pitch o) * sin (yaw o))
             + radius o * sin (pitch o) * (radius o * sin (pitch o))
             + radius o * cos (pitch o) * cos (yaw o) * (radius o * cos (pitch o) * cos (yaw o)))
      with (radius o * radius o *
              (cos (pitch o) * cos (pitch o) * (sin (yaw o) * sin (yaw o) + cos (yaw o) * cos (yaw o))
               + sin (pitch o) * sin (pitch o))) by ring.
    rewrite Hy, Rmult_1_r, (Rplus_comm (cos (pitch o) * cos (pitch o))), Hp. ring. }
  assert (Hl : length (eye o) = radius o).
  { unfold length. rewrite Hd. apply sqrt_square. lra. }
  split; [exact Hd|]. split; [exact Hl|]. rewrite Hl. lra.
Qed.

Lemma idle_step (o : orbit) (e : event) :
  dragging o = false -> is_down e = false ->
  dragging (handle o e) = false /\ yaw (handle o e) = yaw o /\ pitch (handle o e) = pitch o.
Proof.
  intros Hd He. destruct e; try discriminate He; cbn; unfold on_mousemove;
    rewrite ?Hd; cbn; auto.
Qed.

(** Without a button press nothing rotates: a sequence of events with no
    [mousedown] leaves yaw and pitch at their initial values, however the
    cursor moves and the wheel turns. *)
Theorem no_press_no_rotation (evs : list event) :
  forallb (fun e => negb (is_down e)) evs = true ->
  yaw (run evs init) = 0 /\ pitch (run evs init) = 0.2.
Proof.
  assert (G : forall o, dragging o = false ->
            forallb (fun e => negb (is_down e)) evs = true ->
            yaw (run evs o) = yaw o /\ pitch (run evs o) = pitch o).
  { induction evs as [|e evs IH]; intros o Hd Hall; [now split|].
    cbn in Hall. apply andb_true_iff in Hall as [He Hall].
    apply negb_true_iff in He.
    destruct (idle_step o e Hd He) as (Hd' & Hy & Hp).
    change (run (e :: evs) o) with (run evs (handle o e)).
    destruct (IH (handle o e) Hd' Hall) as [-> ->]. now split. }
  intros Hall. now apply (G init).
Qed.

Lemma no_press_no_rotation_witness :
  forallb (fun e => negb (is_down e)) [MouseMove 3 4; Wheel 1; MouseUp; MouseMove 9 9] = true
  /\ yaw (run [MouseMove 3 4; Wheel 1; MouseUp; MouseMove 9 9] init) = 0
  /\ pitch (run [MouseMove 3 4; Wheel 1; MouseUp; MouseMove 9 9] init) = 0.2.
Proof.
  split; [reflexivity|].
  apply (no_press_no_rotation [MouseMove 3 4; Wheel 1; MouseUp; MouseMove 9 9]).
  reflexivity.
Defined.

Lemma last_cons {A : Type} (l : list A) (a d : A) : last (a :: l) d = last l a.
Proof.
  revert a d. induction l as [|b l IH]; intros a d; [reflexivity|].
  change (last (a :: b :: l) d) with (last (b :: l) d).
  now rewrite (IH b d), (IH b a).
Qed.

Lemma moves_yaw (path : list (R * R)) (o : orbit) :
  dragging o = true ->
  let o' := run (map (fun q => MouseMove (fst q) (snd q)) path) o in
  yaw o' = yaw o + (fst (last path (lastX o, lastY o)) - lastX o) * rotateSpeed o
  /\ radius o' = radius o.
Proof.
  revert o. induction path as [|q path IH]; intros o Hd.
  - cbn. split; [ring | reflexivity].
  - cbn [map]. cbv zeta.
    change (run (MouseMove (fst q) (snd q) :: map (fun q0 => MouseMove (fst q0) (snd q0)) path) o)
      with (run (map (fun q0 => MouseMove (fst q0) (snd q0)) path)
                (handle o (MouseMove (fst q) (snd q)))).
    set (o1 := handle o (MouseMove (fst q) (snd q))).
    assert (E : dragging o1 = true /\ lastX o1 = fst q /\ lastY o1 = snd q
                /\ yaw o1 = yaw o + (fst q - lastX o) * rotateSpeed o
                /\ rotateSpeed o1 = rotateSpeed o /\ radius o1 = radius o).
    { unfold o1; cbn; unfold on_mousemove; rewrite Hd; cbn. repeat split; reflexivity. }
    destruct E as (Hd1 & Hx & Hy & Hyaw & Hrs & Hrad).
    destruct (IH o1 Hd1) as [H1 H2].
    rewrite H1, H2, Hyaw, Hx, Hy, Hrs, Hrad.
    split; [|reflexivity].
    rewrite (last_cons path q (lastX o, lastY o)). destruct q as [qx qy]; cbn [fst snd].
    ring.
Qed.

(** A drag turns the camera by the horizontal distance between where the
    button went down and where the cursor ends, times 0.008 rad per pixel,
    whatever the path between; and it leaves the radius. *)
Theorem drag_yaw (evs : list event) (x0 y0 : R) (path : list (R * R)) :
  let o := run evs init in
  let o' := run (drag x0 y0 path) o in
  yaw o' = yaw o + (fst (last path (x0, y0)) - x0) * 0.008
  /\ radius o' = radius o.
Proof.
  intros o o'. destruct (reachable evs) as [[_ [Hrs _]] _]. fold o in Hrs.
  unfold o', drag.
  change (run (MouseDown x0 y0 :: map (fun q => MouseMove (fst q) (snd q)) path) o)
    with (run (map (fun q => MouseMove (fst q) (snd q)) path) (handle o (MouseDown x0 y0))).
  destruct (moves_yaw path (handle o (MouseDown x0 y0)) eq_refl) as [H1 H2].
  rewrite H1, H2. cbn. rewrite Hrs. split; reflexivity.
Qed.

(** A wheel step on a reachable state: scrolling down grows the radius by
    2.5 % up to 50, scrolling up shrinks it by 2.5 % down to 2.5, and a
    zero delta leaves it. *)
Theorem wheel_step (evs : list event) (deltaY : R) :
  let o := run evs init in
  radius (on_wheel o deltaY) =
    (if Rlt_dec 0 deltaY then Rmin 50 (radius o * 1.025)
     else if Rlt_dec deltaY 0 then Rmax 2.5 (radius o * 0.975)
     else radius o)
  /\ yaw (on_wheel o deltaY) = yaw o /\ pitch (on_wheel o deltaY) = pitch o.
Proof.
  intros o.
  destruct (reachable evs) as [[(H1 & H2 & H3 & H4) [_ Hz]] [_ Hr]].
  fold o in H3, H4, Hz, Hr.
  split; [|split; reflexivity].
  unfold on_wheel; cbn. rewrite H3, H4, Hz. unfold Js.Math_sign.
  destruct (Rlt_dec 0 deltaY); [|destruct (Rlt_dec deltaY 0)];
    unfold Rmax, Rmin; repeat destruct (Rle_dec _ _); lra.
Qed.

End OrbitMore.

Module PointerMore.
Import Glsl Pointer.

(** For a canvas of positive size, a cursor over it gets coordinates in
    [-1,1] on both axes, the top left corner is (-1, 1), the bottom right
    corner is (1, -1), and the client position is recovered from the
    coordinates. *)
Theorem cursor_to_ndc (r : rect) (clientX clientY : R) :
  0 < width r -> 0 < height r ->
  let m := on_mousemove r clientX clientY in
  (inside r clientX clientY -> -1 <= x2 m <= 1 /\ -1 <= y2 m <= 1)
  /\ on_mousemove r (left r) (top r) = mkVec2 (-1) 1
  /\ on_mousemove r (left r + width r) (top r + height r) = mkVec2 1 (-1)
  /\ left r + (x2 m + 1) / 2 * width r = clientX
  /\ top r + (1 - y2 m) / 2 * height r = clientY.
Proof.
  intros Hw Hh m. unfold m, on_mousemove, inside. cbv zeta. cbn [x2 y2].
  repeat apply conj.
  - intros [Hx Hy].
    assert (0 <= (clientX - left r) / width r <= 1).
    { split; [apply Rle_mult_inv_pos; lra|].
      apply (Rmult_le_reg_r (width r)); [lra|]. unfold Rdiv.
      rewrite Rmult_assoc, Rinv_l by lra. lra. }
    assert (0 <= (clientY - top r) / height r <= 1).
    { split; [apply Rle_mult_inv_pos; lra|].
      apply (Rmult_le_reg_r (height r)); [lra|]. unfold Rdiv.
      rewrite Rmult_assoc, Rinv_l by lra. lra. }
    lra.
  - f_equal; field; lra.
  - f_equal; field; lra.
  - field; lra.
  - field; lra.
Qed.

Lemma cursor_to_ndc_witness :
  0 < width (mkRect 10 20 800 600) /\ 0 < height (mkRect 10 20 800 600)
  /\ on_mousemove (mkRect 10 20 800 600) 10 20 = mkVec2 (-1) 1.
Proof.
  assert (Hw : 0 < width (mkRect 10 20 800 600)) by (cbn; lra).
  assert (Hh : 0 < height (mkRect 10 20 800 600)) by (cbn; lra).
  split; [exact Hw|]. split; [exact Hh|].
  apply (cursor_to_ndc (mkRect 10 20 800 600) 410 320 Hw Hh).
Defined.

End PointerMore.

(** ** More on the audio analysis *)

Module AudioMore.
Import Js JsProps Audio AudioProps Signal.

Lemma nth_byte (l : list Z) (i : nat) :
  bytes l -> (0 <= nth i l 0 <= 255)%Z.
Proof.
  intros H. revert i. induction H as [|b l Hb _ IH]; intros i.
  - destruct i; cbn; lia.
  - destruct i; cbn; [exact Hb | apply IH].
Qed.

Lemma sum_from_range (l : list Z) (i cnt : nat) :
  bytes l -> 0 <= sum_from l i cnt <= 255 * INR cnt.
Proof.
  intros H. revert i. induction cnt as [|cnt IH]; intros i.
  - cbn. lra.
  - cbn [sum_from]. rewrite S_INR.
    pose proof (nth_byte l i H) as [H0 H1].
    apply IZR_le in H0, H1. specialize (IH (S i)). lra.
Qed.

Lemma band_unit (l : list Z) (binHz f0 f1 : R) :
  bytes l -> 0 <= band l binHz f0 f1 <= 1.
Proof.
  intros H. unfold band. cbv zeta.
  set (i0 := Z.max 0 (Zfloor (f0 / binHz))).
  set (i1 := Z.min (Z.of_nat (length l) - 1) (Zceil (f1 / binHz))).
  pose proof (sum_from_range l (Z.to_nat i0) (Z.to_nat (i1 - i0 + 1)) H) as [Hs0 Hs1].
  set (sm := sum_from l (Z.to_nat i0) (Z.to_nat (i1 - i0 + 1))) in *.
  assert (Hm : 1 <= IZR (Z.max 1 (i1 - i0 + 1))) by (apply IZR_le; lia).
  assert (Hc : INR (Z.to_nat (i1 - i0 + 1)) <= IZR (Z.max 1 (i1 - i0 + 1))).
  { rewrite INR_IZR_INZ. apply IZR_le. lia. }
  set (m := IZR (Z.max 1 (i1 - i0 + 1))) in *.
  assert (Hq : 0 <= sm / m <= 255).
  { split.
    - apply Rle_mult_inv_pos; lra.
    - apply (Rmult_le_reg_r m); [lra|]. unfold Rdiv.
      rewrite Rmult_assoc, Rinv_l by lra. nra. }
  lra.
Qed.

Lemma rmsSum_range (l : list Z) : bytes l -> 0 <= rmsSum l <= INR (length l).
Proof.
  intros H. induction H as [|b l Hb _ IH].
  - cbn. lra.
  - cbn [rmsSum length]. rewrite S_INR. cbv zeta.
    destruct Hb as [H0 H1]. apply IZR_le in H0, H1.
    assert (Hx : -1 <= (IZR b - 128) / 128 <= 1) by lra.
    set (x := (IZR b - 128) / 128) in *.
    assert (0 <= x * x <= 1) by nra. lra.
Qed.

Lemma rms_unit (rd : reading) : bytes (td rd) -> 0 <= rms rd <= 1.
Proof.
  intros H. unfold rms. pose proof (rmsSum_range _ H) as [H0 H1].
  split; [apply sqrt_pos|].
  rewrite <- sqrt_1. apply sqrt_le_1_alt.
  destruct (length (td rd)) as [|n] eqn:E.
  - cbn in *. assert (rmsSum (td rd) = 0) by lra.
    unfold Rdiv. nra.
  - assert (0 < INR (S n)) by (apply lt_0_INR; lia).
    apply (Rmult_le_reg_r (INR (S n))); [lra|]. unfold Rdiv.
    rewrite Rmult_assoc, Rinv_l by lra. lra.
Qed.

Lemma bands_unit (rd : reading) :
  well_formed rd ->
  let '(bass, mid, tre) := bands rd in unit bass /\ unit mid /\ unit tre.
Proof.
  intros [Hf Ht]. unfold bands. cbv zeta.
  pose proof (rms_unit rd Ht) as Hr.
  destruct (_ && _).
  - unfold unit, Rmin. repeat destruct (Rle_dec _ _); lra.
  - unfold unit. repeat split; apply band_unit; exact Hf.
Qed.

Lemma nowE_range (rd : reading) : well_formed rd -> 0 <= nowE rd <= 1.25.
Proof.
  intros H. unfold nowE. pose proof (bands_unit rd H) as Hb.
  destruct (bands rd) as [[bass mid] tre]. unfold unit in Hb. lra.
Qed.

Lemma update_levels_unit (s : R) (rd : reading) (a : audio) :
  well_formed rd -> levels_unit a -> levels_unit (updateAudioLevels s rd a).
Proof.
  intros Hrd Ha. unfold updateAudioLevels.
  destruct (analyser a); [|exact Ha]. destruct (audioCtx a); [|exact Ha].
  pose proof (bands_unit rd Hrd) as Hb.
  destruct (bands rd) as [[bass mid] tre]. destruct Hb as (H1 & H2 & H3).
  destruct Ha as (_ & _ & _ & H4).
  unfold levels_unit; cbn. repeat split; try apply H1; try apply H2; try apply H3.
  - destruct (fires s a rd); [lra|]. unfold Rmax. destruct (Rle_dec _ _); lra.
  - destruct (fires s a rd); [lra|]. unfold unit in H4. unfold Rmax.
    destruct (Rle_dec _ _); lra.
Qed.

(** The band levels and the beat level stay in [0,1]: after any run of
    readings made of bytes, from a state whose levels are in [0,1]. *)
Theorem levels_stay_unit (s : R) (rds : list reading) (a : audio) :
  Forall well_formed rds -> levels_unit a -> levels_unit (after s rds a).
Proof.
  intros H. revert a. induction H as [|rd rds Hrd _ IH]; intros a Ha; [exact Ha|].
  cbn. apply IH. now apply update_levels_unit.
Qed.

Lemma bytes_repeat (b : Z) (n : nat) : (0 <= b <= 255)%Z -> bytes (repeat b n).
Proof. intros H. induction n; constructor; auto. Qed.

Lemma tone_well_formed (b : Z) (t : R) : (0 <= b <= 255)%Z -> well_formed (tone b t).
Proof. intros H. split; apply bytes_repeat; [exact H | lia]. Qed.

Lemma levels_stay_unit_witness :
  Forall well_formed [tone 255 1; tone 0 1.5] /\ levels_unit wired0
  /\ levels_unit (after 1.35 [tone 255 1; tone 0 1.5] wired0).
Proof.
  assert (H1 : Forall well_formed [tone 255 1; tone 0 1.5]).
  { apply Forall_cons; [apply tone_well_formed; lia|].
    apply Forall_cons; [apply tone_well_formed; lia | apply Forall_nil]. }
  assert (H2 : levels_unit wired0).
  { unfold levels_unit, unit; cbn. lra. }
  split; [exact H1|]. split; [exact H2|].
  apply (levels_stay_unit 1.35 _ wired0 H1 H2).
Defined.

(** *** The debounce *)

Lemma fired_step (s : R) (rd : reading) (a : audio) :
  (beat_fired s rd a = true ->
     currentTime rd - lastBeatT a > minBeatInterval
     /\ lastBeatT (updateAudioLevels s rd a) = currentTime rd
     /\ aBeat (updateAudioLevels s rd a) = 1.0)
  /\ (beat_fired s rd a = false ->
     lastBeatT (updateAudioLevels s rd a) = lastBeatT a).
Proof.
  destruct (wired_dec a) as [Hw|Hw].
  - destruct (update_wired s rd a Hw) as (_ & Hb & _ & _ & Hbt & Hl).
    rewrite Hb, Hl, Hbt. split; intros Hf; rewrite Hf; [|reflexivity].
    unfold fires, canBeat in Hf. apply andb_true_iff in Hf as [Hc _].
    apply Rltb_iff in Hc. repeat split; lra.
  - destruct (update_unwired s rd a Hw) as [-> ->]. split; [discriminate | reflexivity].
Qed.

Lemma beat_times_count (s : R) (rds : list reading) (a : audio) :
  length (beat_times s rds a) = fst (beats s rds a).
Proof.
  revert a. induction rds as [|rd rds IH]; intros a; [reflexivity|].
  cbn [beat_times]. rewrite fst_beats_cons, <- IH.
  destruct (beat_fired s rd a); reflexivity.
Qed.

(** Beats are more than 0.26 s apart: in every run, from every state, each
    beat comes more than 0.26 s of context time after the beat before it
    (the first after the timer's value); and the beats counted are those
    times. *)
Theorem beats_spaced (s : R) (rds : list reading) (a : audio) :
  spaced (lastBeatT a) (beat_times s rds a)
  /\ length (beat_times s rds a) = fst (beats s rds a).
Proof.
  split; [|apply beat_times_count].
  revert a. induction rds as [|rd rds IH]; intros a; [exact I|].
  cbn [beat_times].
  destruct (fired_step s rd a) as [Hy Hn].
  pose proof (IH (updateAudioLevels s rd a)) as IH1.
  destruct (beat_fired s rd a).
  - destruct (Hy eq_refl) as (Ht & Hl & _). rewrite Hl in IH1.
    cbn [spaced]. now split.
  - now rewrite (Hn eq_refl) in IH1.
Qed.

(** *** The decay *)

Lemma decay_twice (b c : R) (n : nat) :
  0 <= c -> Rmax 0 (Rmax 0 (b - c) - INR n * c) = Rmax 0 (b - INR (S n) * c).
Proof.
  intros Hc. rewrite S_INR. pose proof (pos_INR n).
  unfold Rmax. repeat destruct (Rle_dec _ _); nra.
Qed.

(** While no beat fires, a wired analysis lowers the beat level by [3.5/60]
    per call down to 0: after [n] calls it is [max(0, level - n * 3.5/60)],
    so a level of at most 1 is back at 0 after 18 calls. *)
Theorem beat_level_decay (s : R) (rds : list reading) (a : audio) :
  wired a -> 0 <= aBeat a -> beat_times s rds a = [] ->
  aBeat (after s rds a) = Rmax 0 (aBeat a - INR (length rds) * (3.5 / 60))
  /\ (aBeat a <= 1 -> (18 <= length rds)%nat -> aBeat (after s rds a) = 0).
Proof.
  intros Hw H0 Hq.
  assert (E : aBeat (after s rds a) = Rmax 0 (aBeat a - INR (length rds) * (3.5 / 60))).
  { revert a Hw H0 Hq. induction rds as [|rd rds IH]; intros a Hw H0 Hq.
    - cbn. unfold Rmax. destruct (Rle_dec _ _); lra.
    - cbn [beat_times] in Hq.
      destruct (update_wired s rd a Hw) as (Hw' & Hb & _ & _ & Hbt & _).
      destruct (beat_fired s rd a) eqn:Ef; [discriminate|].
      rewrite <- Hb in Hbt. cbn [after fold_left].
      assert (H0' : 0 <= aBeat (updateAudioLevels s rd a)).
      { rewrite Hbt. unfold Rmax. destruct (Rle_dec _ _); lra. }
      pose proof (IH _ Hw' H0' Hq) as E. unfold after in E. rewrite E, Hbt.
      replace (3.5 * (1 / 60)) with (3.5 / 60) by lra.
      rewrite decay_twice by lra. reflexivity. }
  split; [exact E|].
  intros H1 Hn. rewrite E. apply le_INR in Hn. cbn [INR] in Hn.
  unfold Rmax. destruct (Rle_dec _ _); lra.
Qed.

(** *** The moving average *)

Lemma Rmax_half (s : R) : 0.5 <= Rmax 0.5 s /\ s <= Rmax 0.5 s.
Proof. unfold Rmax. destruct (Rle_dec 0.5 s); lra. Qed.

Lemma ema_next_range (a : audio) (rd : reading) :
  0 <= nowE rd <= 1.25 -> 0 <= ema a <= 1.25 -> 0 <= ema_next a rd <= 1.25.
Proof.
  intros Hn He. unfold ema_next, Reqb. cbv zeta.
  destruct (Req_dec_T (ema a) 0); lra.
Qed.

Lemma silent_no_fire (s : R) (rd : reading) (a : audio) :
  0 <= ema a -> nowE rd = 0 -> beat_fired s rd a = false.
Proof.
  intros He Hn.
  assert (Hf : fires s a rd = false).
  { unfold fires, threshold, ema_next, Reqb. cbv zeta. rewrite Hn.
    pose proof (Rmax_half s) as [Hm _].
    rewrite (Rltb_false _ 0); [apply andb_false_r|].
    destruct (Req_dec_T (ema a) 0); nra. }
  unfold beat_fired. rewrite Hf. destruct (analyser a); destruct (audioCtx a); reflexivity.
Qed.

Lemma update_ema_range (s : R) (rd : reading) (a : audio) :
  well_formed rd -> 0 <= ema a <= 1.25 -> 0 <= ema (updateAudioLevels s rd a) <= 1.25.
Proof.
  intros Hrd He. destruct (wired_dec a) as [Hw|Hw].
  - destruct (update_wired s rd a Hw) as (_ & _ & _ & E & _). rewrite E.
    apply ema_next_range; [now apply nowE_range | exact He].
  - destruct (update_unwired s rd a Hw) as [-> _]. exact He.
Qed.

(** The moving average stays in [0, 1.25] over every run of readings made of
    bytes, and in such a state a reading of zero energy fires no beat,
    whatever the sensitivity and the time since the last beat. *)
Theorem silence_fires_no_beat (s : R) (rds : list reading) (a : audio) (rd : reading) :
  Forall well_formed rds -> 0 <= ema a <= 1.25 ->
  0 <= ema (after s rds a) <= 1.25
  /\ (nowE rd = 0 -> beat_fired s rd (after s rds a) = false).
Proof.
  intros H He.
  assert (G : 0 <= ema (after s rds a) <= 1.25).
  { revert a He. induction H as [|r rds Hr _ IH]; intros a He; [exact He|].
    cbn. apply IH. now apply update_ema_range. }
  split; [exact G|]. intros Hn. apply silent_no_fire; [lra | exact Hn].
Qed.

Lemma silence_fires_no_beat_witness :
  Forall well_formed [tone 255 1] /\ 0 <= ema wired0 <= 1.25
  /\ 0 <= ema (after 1.35 [tone 255 1] wired0) <= 1.25.
Proof.
  assert (H1 : Forall well_formed [tone 255 1]).
  { apply Forall_cons; [apply tone_well_formed; lia | apply Forall_nil]. }
  assert (H2 : 0 <= ema wired0 <= 1.25) by (cbn; lra).
  split; [exact H1|]. split; [exact H2|].
  apply (silence_fires_no_beat 1.35 [tone 255 1] wired0 (tone 0 2) H1 H2).
Defined.



Lemma beat_level_decay_witness :
  wired warm /\ 0 <= aBeat warm /\ beat_times 1.35 [tone 0 1; tone 0 1.1] warm = []
  /\ aBeat (after 1.35 [tone 0 1; tone 0 1.1] warm) = Rmax 0 (aBeat warm - 2 * (3.5 / 60)).
Proof.
  destruct warm_state as (Hw & He & Hb & Hl).
  assert (H0 : 0 <= aBeat warm) by (rewrite Hb; lra).
  assert (Z0 : forall t, nowE (tone 0 t) = 0) by (intros t; rewrite nowE_tone; lra).
  assert (Hq : beat_times 1.35 [tone 0 1; tone 0 1.1] warm = []).
  { cbn [beat_times].
    rewrite (silent_no_fire 1.35 (tone 0 1) warm) by (rewrite ?He; auto; lra).
    rewrite silent_no_fire; [reflexivity| |apply Z0].
    destruct (update_wired 1.35 (tone 0 1) warm Hw) as (_ & _ & _ & E & _).
    rewrite E, ema_next_warm, He, Z0 by (rewrite He; lra). lra. }
  split; [exact Hw|]. split; [exact H0|]. split; [exact Hq|].
  replace 2 with (INR (length [tone 0 1; tone 0 1.1])) by (cbn; lra).
  apply (beat_level_decay 1.35 [tone 0 1; tone 0 1.1] warm Hw H0 Hq).
Defined.

(** After a stop the analysis does nothing until a source is wired: every
    run leaves the stopped state as it is and fires no beat; and a second
    stop changes nothing. *)
Theorem stopped_stays (s : R) (rds : list reading) (a : audio) :
  after s rds (stopTabAudioCapture a) = stopTabAudioCapture a
  /\ beat_times s rds (stopTabAudioCapture a) = []
  /\ fst (beats s rds (stopTabAudioCapture a)) = 0%nat
  /\ stopTabAudioCapture (stopTabAudioCapture a) = stopTabAudioCapture a.
Proof.
  assert (G : after s rds (stopTabAudioCapture a) = stopTabAudioCapture a
              /\ beat_times s rds (stopTabAudioCapture a) = []).
  { induction rds as [|rd rds [IH1 IH2]]; [now split|].
    cbn [after fold_left beat_times].
    change (updateAudioLevels s rd (stopTabAudioCapture a)) with (stopTabAudioCapture a).
    change (beat_fired s rd (stopTabAudioCapture a)) with false.
    split; [exact IH1 | exact IH2]. }
  destruct G as [G1 G2]. split; [exact G1|]. split; [exact G2|].
  split; [|destruct a as [? ? ? ? [?|] ? ? ? ? ? ?]; reflexivity].
  rewrite <- beat_times_count, G2. reflexivity.
Qed.

End AudioMore.

(** ** Audio source acquisition *)

Module CaptureMore.
Import Audio Capture.

(** The order of the sources.  When tab capture gives a stream with audio,
    the microphone is not asked.  From a state without analyser, the
    fallback bar is shown exactly when tab capture and the microphone both
    fail, and the analysis is wired exactly when it is not shown.  With an
    analyser still in place the bar is never shown.  No attempt touches the
    levels or the beat state. *)
Theorem acquisition_order (d : display_result) (m m' : mic_result) (a : audio) :
  let r := startTabAudioCapture d m a in
  (display_ok d = true -> startTabAudioCapture d m' a = r)
  /\ (analyser a = None ->
      (snd r = true <-> display_ok d = false /\ mic_ok m = false)
      /\ (snd r = false <-> wired (fst r)))
  /\ (analyser a <> None -> snd r = false)
  /\ (aBass (fst r) = aBass a /\ aMid (fst r) = aMid a /\ aTre (fst r) = aTre a
      /\ aBeat (fst r) = aBeat a /\ ema (fst r) = ema a /\ lastBeatT (fst r) = lastBeatT a).
Proof.
  cbv zeta. split; [|split; [|split]].
  - destruct d; cbn; intros H; try discriminate H; reflexivity.
  - intros Ha. unfold wired.
    destruct d; destruct m; cbn; rewrite ?Ha; cbn;
      (split; split; intros H; try discriminate H; try reflexivity;
       try (split; reflexivity); try (split; discriminate);
       try (destruct H; discriminate); try (destruct H; congruence)).
  - intros Ha. destruct d; destruct m; cbn; try reflexivity;
      destruct (analyser a); congruence.
  - destruct d; destruct m; cbn; repeat split; reflexivity.
Qed.

End CaptureMore.

(** ** The blend and depth state over the frames *)

Module CompositorMore.
Import Compositor.

Lemma clear_writes_depth (n : nat) (g : glstate) :
  depthMask g = true ->
  Forall (fun t => depthMask (at_clear t) = true) (frames n g).
Proof.
  revert g. induction n as [|n IH]; intros g Hg; cbn [frames]; constructor.
  - exact Hg.
  - apply IH. reflexivity.
Qed.

(** Whatever state the frames start from, every frame draws the core without
    blending and with depth writes, then the flames and the glow with
    additive blending (SRC_ALPHA, ONE) and without depth writes, and leaves
    blending off and depth writes on; so from a fresh context every
    [renderer.clear()] runs with depth writes on and clears the depth
    buffer. *)
Theorem pass_states (n : nat) (g : glstate) :
  Forall (fun t =>
      map (fun s => (blend s, depthMask s)) (at_draw t)
        = [(false, true); (true, false); (true, false)]
      /\ map (fun s => (blendSrc s, blendDst s)) (tl (at_draw t))
        = [(SRC_ALPHA, ONE); (SRC_ALPHA, ONE)]
      /\ blend (at_end t) = false /\ depthMask (at_end t) = true)
    (frames n g)
  /\ Forall (fun t => depthMask (at_clear t) = true) (frames n gl_init)
  /\ Forall (fun t => depthMask (at_clear t) = true) (tl (frames n g)).
Proof.
  split; [|split].
  - revert g. induction n as [|n IH]; intros g; cbn [frames]; constructor.
    + repeat split.
    + apply IH.
  - apply clear_writes_depth. reflexivity.
  - destruct n as [|n]; cbn [frames tl]; [constructor|].
    apply clear_writes_depth. reflexivity.
Qed.

End CompositorMore.

(** ** More on the frame *)

Module FrameMore.
Import Glsl Gl Js JsProps Frame FrameProps.

Lemma tick_on (loc : locations) (c : Ctl.controls) (t0 : R) (i : input) (h : host) :
  fireballOn h = true -> Ctl.audioOn c = true ->
  exists s, tick loc c t0 i h =
    ({| upSmooth := frame_up c i h; last := now i; fireballOn := true;
        au := Audio.updateAudioLevels (Ctl.sensitivity c) (rd i) (au h);
        prog := pass loc (viewProj i) 2 (pass loc (viewProj i) 1 (pass loc (viewProj i) 0 s)) |},
     [pass loc (viewProj i) 0 s;
      pass loc (viewProj i) 1 (pass loc (viewProj i) 0 s);
      pass loc (viewProj i) 2 (pass loc (viewProj i) 1 (pass loc (viewProj i) 0 s))])
    /\ (let a' := Audio.updateAudioLevels (Ctl.sensitivity c) (rd i) (au h) in
        (loc u_FlameLift = true -> s u_FlameLift =
           F (Rmin (Ctl.flameLift c + Audio.aBass a' * Ctl.bassToFlameLift c) 1.8))
        /\ (loc u_GlowStrength = true -> s u_GlowStrength =
           F (Rmin (Ctl.glowStrength c + Audio.aBass a' * Ctl.bassToGlow c) 3.0))
        /\ (loc u_CoreLowAmp = true -> s u_CoreLowAmp =
           F (Rmin (Ctl.coreLowAmp c + Audio.aMid a' * Ctl.midToCoreLow c) 1.0))
        /\ (loc u_GrainAmp = true -> s u_GrainAmp =
           F (Rmin (Ctl.grainAmp c + Audio.aTre a' * Ctl.trebleToGrainHi c) 0.6))
        /\ (loc u_Exposure = true -> s u_Exposure =
           F (Rmin (Ctl.exposure c + Audio.aBeat a' * Ctl.beatToExposure c) 2.0))).
Proof.
  intros Hf Ha. unfold tick, bind_audio. cbv zeta. rewrite Hf, Ha. cbn [andb].
  eexists. split; [reflexivity|].
  repeat apply conj; intros Hl; read_store; rewrite Hl; reflexivity.
Qed.

Lemma pass_keeps (loc : locations) (vp : mat4) (k : Z) (s : store) (n : uname) :
  n <> u_Pass -> n <> u_Model -> n <> u_ViewProj -> pass loc vp k s n = s n.
Proof.
  intros H1 H2 H3. unfold pass. cbv zeta.
  rewrite !uniform_other by congruence. reflexivity.
Qed.

(** Fireball mode on but the capture stopped: the analysis returns at once
    and leaves the audio state as it is, the frame makes its three draw
    calls, and in each of them every modulated parameter is its base value
    under its ceiling. *)
Theorem stopped_capture_frame (loc : locations) (c : Ctl.controls) (t0 : R)
    (i : input) (h : host) (a0 : Audio.audio) :
  fireballOn h = true -> Ctl.audioOn c = true ->
  au h = Audio.stopTabAudioCapture a0 ->
  au (fst (tick loc c t0 i h)) = au h
  /\ exists s0 s1 s2 : store,
       snd (tick loc c t0 i h) = [s0; s1; s2]
       /\ prog (fst (tick loc c t0 i h)) = s2
       /\ Forall (fun s =>
            (loc u_FlameLift = true -> s u_FlameLift = F (Rmin (Ctl.flameLift c) 1.8))
            /\ (loc u_GlowStrength = true ->
                s u_GlowStrength = F (Rmin (Ctl.glowStrength c) 3.0))
            /\ (loc u_CoreLowAmp = true ->
                s u_CoreLowAmp = F (Rmin (Ctl.coreLowAmp c) 1.0))
            /\ (loc u_GrainAmp = true -> s u_GrainAmp = F (Rmin (Ctl.grainAmp c) 0.6))
            /\ (loc u_Exposure = true -> s u_Exposure = F (Rmin (Ctl.exposure c) 2.0)))
          [s0; s1; s2].
Proof.
  intros Hf Ha Hs.
  destruct (tick_on loc c t0 i h Hf Ha) as (s & T & C).
  assert (U : Audio.updateAudioLevels (Ctl.sensitivity c) (rd i) (au h) = au h).
  { rewrite Hs. reflexivity. }
  cbv zeta in C. rewrite U in C. rewrite T. cbn [fst snd au prog]. rewrite U.
  split; [reflexivity|].
  do 3 eexists. split; [reflexivity|]. split; [reflexivity|].
  rewrite Hs in C.
  cbn [Audio.aBass Audio.aMid Audio.aTre Audio.aBeat Audio.stopTabAudioCapture] in C.
  destruct C as (C1 & C2 & C3 & C4 & C5).
  repeat apply Forall_cons; try apply Forall_nil;
    repeat apply conj; intros Hl; rewrite !pass_keeps by discriminate;
    rewrite ?(C1 Hl), ?(C2 Hl), ?(C3 Hl), ?(C4 Hl), ?(C5 Hl);
    do 2 f_equal; ring.
Qed.

Lemma stopped_capture_frame_witness :
  let h := mkHost (upSmooth host_fire) 0 true (Audio.stopTabAudioCapture Audio.warm)
             (prog host_fire) in
  fireballOn h = true /\ Ctl.audioOn Ctl.defaults = true
  /\ au h = Audio.stopTabAudioCapture Audio.warm
  /\ au (fst (tick all_present Ctl.defaults 0 (frame_at 16) h)) = au h
  /\ exists s0 s1 s2 : store,
       snd (tick all_present Ctl.defaults 0 (frame_at 16) h) = [s0; s1; s2]
       /\ prog (fst (tick all_present Ctl.defaults 0 (frame_at 16) h)) = s2
       /\ Forall (fun s =>
            (all_present u_FlameLift = true ->
             s u_FlameLift = F (Rmin (Ctl.flameLift Ctl.defaults) 1.8))
            /\ (all_present u_GlowStrength = true ->
                s u_GlowStrength = F (Rmin (Ctl.glowStrength Ctl.defaults) 3.0))
            /\ (all_present u_CoreLowAmp = true ->
                s u_CoreLowAmp = F (Rmin (Ctl.coreLowAmp Ctl.defaults) 1.0))
            /\ (all_present u_GrainAmp = true ->
                s u_GrainAmp = F (Rmin (Ctl.grainAmp Ctl.defaults) 0.6))
            /\ (all_present u_Exposure = true ->
                s u_Exposure = F (Rmin (Ctl.exposure Ctl.defaults) 2.0)))
          [s0; s1; s2].
Proof.
  intros h.
  split; [reflexivity|]. split; [reflexivity|]. split; [reflexivity|].
  apply (stopped_capture_frame all_present Ctl.defaults 0 (frame_at 16) h Audio.warm);
    reflexivity.
Defined.

(** *** From the controls to the shells *)

Lemma bind_audio_keeps (loc : locations) (c : Ctl.controls) (on : bool)
    (r : Audio.reading) (a : Audio.audio) (s : store) (n : uname) :
  n = u_MouseOn \/ n = u_ShellOffset \/ n = u_GlowOffset \/ n = u_Octaves ->
  snd (bind_audio loc c on r a s) n = s n.
Proof.
  intros H. unfold bind_audio. cbv zeta.
  destruct (on && Ctl.audioOn c); cbn [snd];
    destruct H as [->|[->|[->| ->]]]; read_store; reflexivity.
Qed.

(** [v | 0] cuts a number that is not negative down to its whole part. *)
Lemma to_int32_cut (z : Z) (f : R) :
  (0 <= z < 2147483648)%Z -> 0 <= f < 1 -> to_int32 (IZR z + f) = z.
Proof.
  intros Hz Hf. unfold to_int32.
  assert (E : trunc (IZR z + f) = z).
  { unfold trunc. assert (0 <= IZR z) by (apply IZR_le; lia).
    destruct (Rle_dec 0 (IZR z + f)); [|lra]. apply Zfloor_eq. lra. }
  rewrite E, Z.mod_small by lia. lia.
Qed.

(** The octave count of the panel reaches the shader cut to a whole number:
    for [controls.octaves = z + f] with a whole [z >= 0] and [0 <= f < 1],
    each of the three draw calls of the frame (audio on or off) has
    [u_Octaves = z], and [fbm] then sums [min(z, 8)] octaves. *)
Theorem octaves_reach_shader (loc : locations) (c : Ctl.controls) (t0 : R)
    (i : input) (h : host) (z : Z) (f : R) :
  (0 <= z < 2147483648)%Z -> 0 <= f < 1 ->
  Ctl.octaves c = IZR z + f -> loc u_Octaves = true ->
  exists s0 s1 s2 : store,
    snd (tick loc c t0 i h) = [s0; s1; s2]
    /\ prog (fst (tick loc c t0 i h)) = s2
    /\ Forall (fun s =>
         ui s u_Octaves = z
         /\ forall p, Noise.fbm p (ui s u_Octaves)
                      = Noise.octave_sum p (Z.to_nat (Z.min z 8)))
       [s0; s1; s2].
Proof.
  intros Hz Hf Ho Hl. unfold tick. cbv zeta.
  set (s0 := bind_base loc c (0.001 * (now i - t0))
               (lag_up c (Rmax 0 ((now i - last h) * 0.001)) (upSmooth h))
               (mouseNDC i) (prog h)).
  pose proof (bind_audio_keeps loc c (fireballOn h) (rd i) (au h) s0 u_Octaves) as K.
  destruct (bind_audio loc c (fireballOn h) (rd i) (au h) s0) as [a s].
  cbn [snd] in K. cbn [fst snd prog].
  assert (E : s u_Octaves = I z).
  { rewrite K by auto. unfold s0, bind_base. cbv zeta. read_store.
    rewrite Hl, Ho, to_int32_cut by assumption. reflexivity. }
  assert (G : forall s', s' u_Octaves = I z ->
              ui s' u_Octaves = z
              /\ forall p, Noise.fbm p (ui s' u_Octaves)
                           = Noise.octave_sum p (Z.to_nat (Z.min z 8))).
  { intros s' E'. unfold ui. rewrite E'. split; [reflexivity|]. intros p.
    rewrite NoiseProps.fbm_octave_sum. f_equal. unfold Noise.clamp_0_8. lia. }
  do 3 eexists. split; [reflexivity|]. split; [reflexivity|].
  repeat apply Forall_cons; try apply Forall_nil; apply G;
    rewrite !pass_keeps by discriminate; exact E.
Qed.

Lemma octaves_reach_shader_witness :
  (0 <= 5 < 2147483648)%Z /\ 0 <= 0 < 1 /\ Ctl.octaves Ctl.defaults = IZR 5 + 0
  /\ all_present u_Octaves = true
  /\ exists s0 s1 s2 : store,
       snd (tick all_present Ctl.defaults 0 (frame_at 16) host_fire) = [s0; s1; s2]
       /\ prog (fst (tick all_present Ctl.defaults 0 (frame_at 16) host_fire)) = s2
       /\ Forall (fun s => ui s u_Octaves = 5%Z
                   /\ forall p, Noise.fbm p (ui s u_Octaves)
                                = Noise.octave_sum p (Z.to_nat (Z.min 5 8)))
            [s0; s1; s2].
Proof.
  assert (H1 : (0 <= 5 < 2147483648)%Z) by lia.
  assert (H2 : 0 <= 0 < 1) by lra.
  assert (H3 : Ctl.octaves Ctl.defaults = IZR 5 + 0) by (cbn; lra).
  split; [exact H1|]. split; [exact H2|]. split; [exact H3|]. split; [reflexivity|].
  apply (octaves_reach_shader all_present Ctl.defaults 0 (frame_at 16) host_fire 5 0
           H1 H2 H3 eq_refl).
Defined.



End FrameMore.

Module LagMore.
Import Glsl Js JsProps Frame FrameProps.

Lemma cauchy_schwarz (a b : vec3) : dot a b * dot a b <= dot a a * dot b b.
Proof.
  destruct a as [a1 a2 a3], b as [b1 b2 b3]. unfold dot; cbn [vx vy vz].
  assert (H : (a1 * a1 + a2 * a2 + a3 * a3) * (b1 * b1 + b2 * b2 + b3 * b3)
              - (a1 * b1 + a2 * b2 + a3 * b3) * (a1 * b1 + a2 * b2 + a3 * b3)
              = (a1 * b2 - a2 * b1) * (a1 * b2 - a2 * b1)
                + (a1 * b3 - a3 * b1) * (a1 * b3 - a3 * b1)
                + (a2 * b3 - a3 * b2) * (a2 * b3 - a3 * b2)) by ring.
  pose proof (Rle_0_sqr (a1 * b2 - a2 * b1)) as S1.
  pose proof (Rle_0_sqr (a1 * b3 - a3 * b1)) as S2.
  pose proof (Rle_0_sqr (a2 * b3 - a3 * b2)) as S3.
  unfold Rsqr in S1, S2, S3. lra.
Qed.

Lemma catchup_unit (c : Ctl.controls) (dt : R) : 0 <= dt -> 0 <= catchup c dt < 1.
Proof.
  intros [H|H].
  - pose proof (catchup_range c dt H). lra.
  - subst dt. unfold catchup.
    replace (- 0 / Rmax (Ctl.upCatchupTau c) 0.001) with 0 by (unfold Rdiv; ring).
    rewrite exp_0. lra.
Qed.

(** The arithmetic of a step of the lag between two unit vectors whose dot
    product is [d]: [num] is the dot product of the target with the blend,
    [L] the squared length of the blend, [q] the factor of the
    normalization. *)
Lemma step_gain (d k q : R) :
  -1 <= d <= 1 -> 0 <= k <= 1 -> 0 < q ->
  q * q * ((1 - k) * (1 - k) + 2 * k * (1 - k) * d + k * k) = 1 ->
  d <= ((1 - k) * d + k) * q.
Proof.
  intros Hd Hk Hq HL.
  set (L := (1 - k) * (1 - k) + 2 * k * (1 - k) * d + k * k) in *.
  set (num := (1 - k) * d + k).
  assert (HL1 : L <= 1).
  { unfold L. assert (0 <= k * (1 - k) * (1 - d)).
    { apply Rmult_le_pos; [apply Rmult_le_pos|]; lra. }
    nra. }
  assert (HLpos : 0 < L).
  { destruct (Rlt_dec 0 L) as [H|H]; [exact H|].
    assert (q * q * L <= 0).
    { assert (0 <= q * q) by nra. nra. }
    lra. }
  assert (Hq1 : 1 <= q).
  { destruct (Rle_dec 1 q) as [H|H]; [exact H|].
    assert (q * q < 1) by nra. assert (q * q * L < 1) by nra. lra. }
  assert (Hnd : d <= num).
  { unfold num. assert (0 <= k * (1 - d)) by (apply Rmult_le_pos; lra). lra. }
  destruct (Rle_dec 0 num) as [Hn|Hn].
  - assert (num <= num * q) by nra. lra.
  - assert (Hneg : num < 0) by lra.
    assert (Hd0 : d < 0).
    { unfold num in Hneg. assert (0 <= (1 - k) * d \/ d < 0) as [H|H]; [|nra|exact H].
      destruct (Rle_dec 0 d); [left; apply Rmult_le_pos; lra | right; lra]. }
    assert (Hid : d * d * L - num * num = (d * d - 1) * (k * (2 * (1 - k) * d + k)))
      by (unfold L, num; ring).
    assert (Hfac : k * (2 * (1 - k) * d + k) <= 0).
    { assert (2 * (1 - k) * d + k <= 0) by (unfold num in Hneg; lra).
      assert (0 <= k * - (2 * (1 - k) * d + k)) by (apply Rmult_le_pos; lra).
      lra. }
    assert (Hsq : num * num <= d * d * L).
    { assert (0 <= (1 - d * d) * - (k * (2 * (1 - k) * d + k))).
      { apply Rmult_le_pos; [nra | lra]. }
      lra. }
    destruct (Rle_dec d (num * q)) as [H|H]; [exact H|].
    exfalso.
    assert (Hlt : num * q < d) by lra.
    assert (H1 : d * d < (num * q) * (num * q)) by nra.
    assert (H2 : (num * q) * (num * q) * L = num * num).
    { replace ((num * q) * (num * q) * L) with (num * num * (q * q * L)) by ring.
      rewrite HL. ring. }
    assert (H3 : d * d * L < (num * q) * (num * q) * L)
      by (apply Rmult_lt_compat_r; assumption).
    lra.
Qed.

Lemma step_null (d k : R) :
  -1 <= d <= 1 -> 0 <= k <= 1 ->
  (1 - k) * (1 - k) + 2 * k * (1 - k) * d + k * k = 0 -> d <= 0.
Proof.
  intros Hd Hk H.
  destruct (Rle_dec d 0) as [H0|H0]; [exact H0|]. exfalso.
  assert (0 <= k * (1 - k) * d).
  { apply Rmult_le_pos; [apply Rmult_le_pos|]; lra. }
  assert (0 < (1 - k) * (1 - k) + k * k) by nra.
  lra.
Qed.

Lemma lerp_metrics (a b : vec3) (k : R) :
  dot a a = 1 -> dot b b = 1 ->
  let v := vec3_lerp a b k in
  vx v * vx v + vy v * vy v + vz v * vz v
    = (1 - k) * (1 - k) + 2 * k * (1 - k) * dot b a + k * k
  /\ dot b v = (1 - k) * dot b a + k.
Proof.
  destruct a as [a1 a2 a3], b as [b1 b2 b3]. unfold dot, vec3_lerp; cbn [vx vy vz].
  intros Ha Hb. split.
  - replace ((a1 + k * (b1 - a1)) * (a1 + k * (b1 - a1)) + (a2 + k * (b2 - a2)) * (a2 + k * (b2 - a2))
             + (a3 + k * (b3 - a3)) * (a3 + k * (b3 - a3)))
      with ((1 - k) * (1 - k) * (a1 * a1 + a2 * a2 + a3 * a3)
            + 2 * k * (1 - k) * (b1 * a1 + b2 * a2 + b3 * a3)
            + k * k * (b1 * b1 + b2 * b2 + b3 * b3)) by ring.
    rewrite Ha, Hb. ring.
  - replace (b1 * (a1 + k * (b1 - a1)) + b2 * (a2 + k * (b2 - a2)) + b3 * (a3 + k * (b3 - a3)))
      with ((1 - k) * (b1 * a1 + b2 * a2 + b3 * a3) + k * (b1 * b1 + b2 * b2 + b3 * b3))
      by ring.
    rewrite Hb. ring.
Qed.

(** The lagged up vector never turns away from the target: for a unit up
    vector and a target of the controls that is not zero (so that its
    normalization is a unit vector), a frame with [dt >= 0] gives an up
    vector whose dot product with the target is at least the one before,
    and which is again a unit vector or, when the blend cancels, zero. *)
Theorem lag_up_approaches (c : Ctl.controls) (dt : R) (up : vec3) :
  0 <= dt -> dot up up = 1 -> dot (upTarget c) (upTarget c) = 1 ->
  dot (upTarget c) up <= dot (upTarget c) (lag_up c dt up)
  /\ (dot (lag_up c dt up) (lag_up c dt up) = 1 \/ lag_up c dt up = mkVec3 0 0 0).
Proof.
  intros Hdt Hu Ht. unfold lag_up.
  pose proof (catchup_unit c dt Hdt) as Hk.
  set (k := catchup c dt) in *. set (b := upTarget c) in *.
  destruct (lerp_metrics up b k Hu Ht) as [HL Hnum].
  set (v := vec3_lerp up b k) in *.
  assert (Hd : -1 <= dot b up <= 1).
  { pose proof (cauchy_schwarz b up) as Hcs. rewrite Hu, Ht in Hcs. nra. }
  destruct (Rlt_dec 0 (vx v * vx v + vy v * vy v + vz v * vz v)) as [Hp|Hp].
  - destruct (normalize_scale v Hp) as (q & Hq & Hqq & ->).
    rewrite HL in Hqq.
    assert (E : dot b (mkVec3 (vx v * q) (vy v * q) (vz v * q)) = dot b v * q)
      by (unfold dot; cbn [vx vy vz]; ring).
    split.
    + rewrite E, Hnum. apply step_gain; lra.
    + left. unfold dot; cbn [vx vy vz].
      replace (vx v * q * (vx v * q) + vy v * q * (vy v * q) + vz v * q * (vz v * q))
        with (q * q * (vx v * vx v + vy v * vy v + vz v * vz v)) by ring.
      rewrite HL. exact Hqq.
  - assert (H0 : vx v * vx v + vy v * vy v + vz v * vz v = 0).
    { pose proof (sq_len_nonneg v). lra. }
    rewrite (normalize_null v H0). split; [|right; reflexivity].
    replace (dot b (mkVec3 0 0 0)) with 0 by (unfold dot; cbn; ring).
    apply (step_null (dot b up) k); [lra | lra | rewrite <- HL; exact H0].
Qed.

Lemma lag_up_approaches_witness :
  0 <= 0.016 /\ dot (mkVec3 0 1 0) (mkVec3 0 1 0) = 1
  /\ dot (upTarget tilted) (upTarget tilted) = 1
  /\ dot (upTarget tilted) (mkVec3 0 1 0)
     <= dot (upTarget tilted) (lag_up tilted 0.016 (mkVec3 0 1 0)).
Proof.
  assert (H1 : 0 <= 0.016) by lra.
  assert (H2 : dot (mkVec3 0 1 0) (mkVec3 0 1 0) = 1) by (unfold dot; cbn; lra).
  assert (H3 : dot (upTarget tilted) (upTarget tilted) = 1).
  { rewrite upTarget_tilted. unfold dot; cbn; lra. }
  split; [exact H1|]. split; [exact H2|]. split; [exact H3|].
  apply (lag_up_approaches tilted 0.016 (mkVec3 0 1 0) H1 H2 H3).
Defined.

End LagMore.

(** ** The shading stage *)

Module FragmentMore.
Import Glsl Gl Noise NoiseProps VertexMore Fragment.

(** The banding never divides by zero: the number of steps is at least 2
    whatever [u_BandCount] is.  The banded value is a whole number of steps,
    at most the input and less than one step below it, and [t] is 0.2 of the
    smooth value plus 0.8 of the banded one. *)
Theorem banding (u : store) (v : Vertex.VsOut) :
  let x := base v + wob u v + grain u v in
  let n := IZR (steps u) in
  (2 <= steps u)%Z
  /\ tBand u v * n = IZR (Zfloor (x * n))
  /\ x - 1 / n < tBand u v <= x
  /\ band_t u v = 0.2 * base v + 0.8 * tBand u v.
Proof.
  cbv zeta. assert (Hs : (2 <= steps u)%Z) by (unfold steps; lia).
  pose proof (IZR_le _ _ Hs) as Hn.
  set (n := IZR (steps u)) in *. set (x := base v + wob u v + grain u v).
  assert (Ht : tBand u v = IZR (Zfloor (x * n)) / n) by reflexivity.
  pose proof (Zfloor_bound (x * n)) as [H1 H2].
  split; [exact Hs|]. split; [rewrite Ht; field; lra|]. split.
  - rewrite Ht. split.
    + apply (Rmult_lt_reg_r n); [lra|].
      replace (IZR (Zfloor (x * n)) / n * n) with (IZR (Zfloor (x * n))) by (field; lra).
      replace ((x - 1 / n) * n) with (x * n - 1) by (field; lra). lra.
    + apply (Rmult_le_reg_r n); [lra|].
      replace (IZR (Zfloor (x * n)) / n * n) with (IZR (Zfloor (x * n))) by (field; lra).
      lra.
  - unfold band_t, mix. lra.
Qed.

Lemma clamp_inside (v lo hi : R) : lo <= v <= hi -> clamp v lo hi = v.
Proof.
  intros H. unfold clamp, Rmin, Rmax.
  destruct (Rle_dec v lo); destruct (Rle_dec _ hi); lra.
Qed.

Lemma clamp_low (v lo hi : R) : v <= lo -> lo <= hi -> clamp v lo hi = lo.
Proof.
  intros H1 H2. unfold clamp, Rmin, Rmax.
  destruct (Rle_dec v lo); destruct (Rle_dec _ hi); lra.
Qed.

Lemma clamp_high (v lo hi : R) : hi <= v -> lo <= hi -> clamp v lo hi = hi.
Proof.
  intros H1 H2. unfold clamp, Rmin, Rmax.
  destruct (Rle_dec v lo); destruct (Rle_dec _ hi); lra.
Qed.

Lemma smoothstep_start (e0 e1 : R) : e0 < e1 -> smoothstep e0 e1 e0 = 0.
Proof.
  intros H. unfold smoothstep. cbv zeta.
  replace ((e0 - e0) / (e1 - e0)) with 0 by (field; lra).
  rewrite clamp_inside by lra. ring.
Qed.

Lemma smoothstep_end (e0 e1 : R) : e0 < e1 -> smoothstep e0 e1 e1 = 1.
Proof.
  intros H. unfold smoothstep. cbv zeta.
  replace ((e1 - e0) / (e1 - e0)) with 1 by (field; lra).
  rewrite clamp_inside by lra. ring.
Qed.

Lemma vmix_start (a b : vec3) : vmix a b 0 = a.
Proof. destruct a. unfold vmix, mix; cbn. f_equal; ring. Qed.

Lemma vmix_end (a b : vec3) : vmix a b 1 = b.
Proof. destruct b. unfold vmix, mix; cbn. f_equal; ring. Qed.

Lemma vmix_unit (a b : vec3) (t : R) :
  unit3 a -> unit3 b -> 0 <= t <= 1 -> unit3 (vmix a b t).
Proof.
  intros (A1 & A2 & A3) (B1 & B2 & B3) Ht. unfold unit3, vmix; cbn [vx vy vz].
  repeat split; apply mix_bounds; assumption.
Qed.

(** The fire palette runs from blue over yellow and orange to red: it is the
    blue for [t <= 0] and the red for [t >= 1], the yellow at 0.3333 and the
    orange at 0.6666, where the segment that follows starts with the same
    colour; and every component of every colour is in [0,1]. *)
Theorem palette_run (t : R) :
  unit3 (firePalette_RYOB t)
  /\ (t <= 0 -> firePalette_RYOB t = palB)
  /\ (1 <= t -> firePalette_RYOB t = palR)
  /\ (firePalette_RYOB 0.3333 = palY
      /\ vmix palY palO (smoothstep 0.3333 0.6666 0.3333) = palY)
  /\ (firePalette_RYOB 0.6666 = palO
      /\ vmix palO palR (smoothstep 0.6666 1.0 0.6666) = palO).
Proof.
  assert (UB : unit3 palB) by (unfold unit3, palB; cbn; lra).
  assert (UY : unit3 palY) by (unfold unit3, palY; cbn; lra).
  assert (UO : unit3 palO) by (unfold unit3, palO; cbn; lra).
  assert (UR : unit3 palR) by (unfold unit3, palR; cbn; lra).
  split; [|split; [|split; [|split]]].
  - unfold firePalette_RYOB. cbv zeta.
    destruct (Rle_dec _ _); [|destruct (Rle_dec _ _)];
      apply vmix_unit; auto; apply smoothstep_bounds.
  - intros H. unfold firePalette_RYOB. cbv zeta. rewrite (clamp_low t) by lra.
    destruct (Rle_dec 0.0 0.3333); [|lra].
    replace 0.0 with 0 by lra. rewrite (smoothstep_start 0 0.3333) by lra.
    apply vmix_start.
  - intros H. unfold firePalette_RYOB. cbv zeta. rewrite (clamp_high t) by lra.
    destruct (Rle_dec 1.0 0.3333); [lra|]. destruct (Rle_dec 1.0 0.6666); [lra|].
    rewrite (smoothstep_end 0.6666 1.0) by lra. apply vmix_end.
  - split.
    + unfold firePalette_RYOB. cbv zeta. rewrite clamp_inside by lra.
      destruct (Rle_dec 0.3333 0.3333); [|lra].
      rewrite (smoothstep_end 0.0 0.3333) by lra. apply vmix_end.
    + rewrite smoothstep_start by lra. apply vmix_start.
  - split.
    + unfold firePalette_RYOB. cbv zeta. rewrite clamp_inside by lra.
      destruct (Rle_dec 0.6666 0.3333); [lra|]. destruct (Rle_dec 0.6666 0.6666); [|lra].
      rewrite (smoothstep_end 0.3333 0.6666) by lra. apply vmix_end.
    + rewrite smoothstep_start by lra. apply vmix_start.
Qed.

Lemma tonemap_unit (lit : vec3) : unit3 (tonemap lit).
Proof.
  unfold unit3, tonemap, vmap, vzip; cbn [vx vy vz].
  repeat split;
    match goal with |- context [clamp ?a ?lo ?hi] =>
      pose proof (clamp_bounds a lo hi); lra end.
Qed.

(** The colour written: red, green and blue are in [0,1] in every pass; the
    core is opaque (alpha 1); the alpha of the flames is between 0 and 0.18
    for a rim factor in [0,1]; and the alpha of the glow is between 0 and
    [0.22 * u_GlowStrength] for a strength that is not negative. *)
Theorem out_colour (u : store) (v : Vertex.VsOut) :
  unit3 (xyz (main u v))
  /\ (ui u u_Pass = 0%Z -> ww (main u v) = 1)
  /\ (ui u u_Pass = 1%Z -> 0 <= Vertex.v_Rim v <= 1 -> 0 <= ww (main u v) <= 0.18)
  /\ (ui u u_Pass <> 0%Z -> ui u u_Pass <> 1%Z -> 0 <= uf u u_GlowStrength ->
      0 <= ww (main u v) <= 0.22 * uf u u_GlowStrength).
Proof.
  unfold main. cbv zeta.
  destruct (Z.eqb_spec (ui u u_Pass) 0) as [E0|E0];
    [|destruct (Z.eqb_spec (ui u u_Pass) 1) as [E1|E1]].
  - split; [apply tonemap_unit|]. cbn [ww v4].
    split; [intros _; lra|]. split; [intros H; lia | intros H; contradiction].
  - split; [apply tonemap_unit|]. cbn [ww v4].
    split; [intros H; lia|]. split; [|intros _ H; contradiction].
    intros _ Hr.
    pose proof (pow_unit (clamp (Vertex.v_UpDot v) 0.0 1.0) 1.6) as Hp.
    pose proof (clamp_bounds (Vertex.v_UpDot v) 0.0 1.0) as Hc.
    assert (0 <= pow (clamp (Vertex.v_UpDot v) 0.0 1.0) 1.6 <= 1) by (apply Hp; lra).
    nra.
  - split; [apply tonemap_unit|]. cbn [ww v4].
    split; [intros H; contradiction|]. split; [intros H; contradiction|].
    intros _ _ Hg.
    pose proof (pow_unit (clamp (Vertex.v_UpDot v) 0.0 1.0) 2.0) as Hp.
    pose proof (clamp_bounds (Vertex.v_UpDot v) 0.0 1.0) as Hc.
    assert (Hcr : 0 <= pow (clamp (Vertex.v_UpDot v) 0.0 1.0) 2.0 <= 1) by (apply Hp; lra).
    pose proof (smoothstep_bounds 0.60 1.00 (Vertex.v_Rim v)) as Hh.
    set (crown := pow (clamp (Vertex.v_UpDot v) 0.0 1.0) 2.0) in *.
    set (halo := smoothstep 0.60 1.00 (Vertex.v_Rim v)) in *.
    assert (0 <= crown * halo <= 1) by nra.
    nra.
Qed.

End FragmentMore.
